(** * Web_Crawl.py: a shallow embedding and its verified properties

    The development follows the source file top to bottom:
    - [Py]: the Python string built-ins the program calls
      ([startswith], [in], [lstrip], [lower], [isnumeric]);
    - [Re]: a backtracking matcher for the fragment of Python's [re]
      that the four compiled patterns use, with [re.match] and
      [findall];
    - the module-level constants and the extractor functions;
    - the lexical filter and the noun/verb analysis;
    - the traversal loop of [scrape_site].

    Text is modelled as [string] (one character per byte), so the
    classes [\d], [str.lower] and [str.isnumeric] are the ASCII ones.
    External collaborators (the HTTP fetcher, the HTML parser, the NLTK
    tokenizer, tagger, lemmatizer and stop word list) are parameters. *)

From Stdlib Require Import Ascii.
From stdpp Require Import base decidable option list strings gmap fin_maps fin_sets.

#[local] Set Warnings "-clear-no-such-hyp".

(** ** Python string built-ins *)

Module Py.

(** [s.startswith(p)] *)
Fixpoint startswith (p s : string) : bool :=
  match p with
  | EmptyString => true
  | String a p' =>
      match s with
      | EmptyString => false
      | String b s' => if Ascii.eqb a b then startswith p' s' else false
      end
  end.

(** [sub in s] for two strings: [sub] occurs as a contiguous substring. *)
Fixpoint contains (sub s : string) : bool :=
  startswith sub s ||
  match s with
  | EmptyString => false
  | String _ s' => contains sub s'
  end.

(** [s.lstrip('/')] *)
Fixpoint lstrip_slash (s : string) : string :=
  match s with
  | String "/" s' => lstrip_slash s'
  | _ => s
  end.

(** The ASCII digits. Python's [\d] and [str.isnumeric] also accept
    digits and numerics outside ASCII; on ASCII text they are this. *)
Definition is_digit (c : ascii) : bool :=
  let n := nat_of_ascii c in (48 <=? n) && (n <=? 57).

Definition is_upper (c : ascii) : bool :=
  let n := nat_of_ascii c in (65 <=? n) && (n <=? 90).

Definition lower_char (c : ascii) : ascii :=
  if is_upper c then ascii_of_nat (nat_of_ascii c + 32) else c.

(** [s.lower()] on ASCII text: the letters A to Z are lower-cased, every
    other character is left as it is. *)
Fixpoint lower (s : string) : string :=
  match s with
  | EmptyString => EmptyString
  | String c s' => String (lower_char c) (lower s')
  end.

Fixpoint all_chars (p : ascii → bool) (s : string) : bool :=
  match s with
  | EmptyString => true
  | String c s' => p c && all_chars p s'
  end.

(** [s.isnumeric()] on ASCII text: at least one character, and all of
    them digits. *)
Definition isnumeric (s : string) : bool :=
  match s with
  | EmptyString => false
  | String _ _ => all_chars is_digit s
  end.

(** [bool(s)] for a string: the empty string is falsy. *)
Definition truthy (s : string) : bool :=
  match s with
  | EmptyString => false
  | String _ _ => true
  end.

(** [sep.join(l)] *)
Fixpoint join (sep : string) (l : list string) : string :=
  match l with
  | [] => EmptyString
  | [x] => x
  | x :: l' => x +:+ sep +:+ join sep l'
  end.

(** [string.punctuation] *)
Definition punctuation : string :=
  String "!" (String "034" "#$%&'()*+,-./:;<=>?@[\]^_`{|}~").

End Py.

(** ** The fragment of [re] used by the compiled patterns *)

Module Re.

Inductive regex : Type :=
  | Eps                                   (* the empty pattern *)
  | Chr (c : ascii)                       (* one literal character *)
  | Cls (p : ascii → bool)                (* one character of a class *)
  | Cat (r1 r2 : regex)                   (* r1 followed by r2 *)
  | Alt (r1 r2 : regex)                   (* r1|r2, r1 is tried first *)
  | Opt (r : regex)                       (* r?, greedy *)
  | Rep (p : ascii → bool) (lo : nat) (hi : option nat).
                                          (* class{lo,hi}, greedy; no [hi]
                                             is unbounded: * and + *)

Definition dec_bound (hi : option nat) : option nat := Nat.pred <$> hi.

Definition may_take (hi : option nat) : bool :=
  match hi with
  | Some 0 => false
  | _ => true
  end.

(** Greedy repetition of a class: take one more character when the class
    and the upper bound allow it and the rest of the pattern then
    succeeds; otherwise stop here, provided the lower bound is reached.
    [k] is the rest of the pattern. *)
Fixpoint rep (p : ascii → bool) (lo : nat) (hi : option nat) (s : string)
    (k : string → option string) : option string :=
  let stop := match lo with 0 => k s | S _ => None end in
  match s with
  | EmptyString => stop
  | String c s' =>
      if p c && may_take hi then
        match rep p (Nat.pred lo) (dec_bound hi) s' k with
        | Some rest => Some rest
        | None => stop
        end
      else stop
  end.

(** Backtracking matcher anchored at the start of [s]. The result is the
    suffix of [s] left after the first successful match in priority
    order, as the continuation [k] returns it. *)
Fixpoint run (r : regex) (s : string) (k : string → option string)
    : option string :=
  match r with
  | Eps => k s
  | Chr c =>
      match s with
      | String c' s' => if Ascii.eqb c c' then k s' else None
      | EmptyString => None
      end
  | Cls p =>
      match s with
      | String c' s' => if p c' then k s' else None
      | EmptyString => None
      end
  | Cat r1 r2 => run r1 s (λ s', run r2 s' k)
  | Alt r1 r2 =>
      match run r1 s k with
      | Some rest => Some rest
      | None => run r2 s k
      end
  | Opt r1 =>
      match run r1 s k with
      | Some rest => Some rest
      | None => k s
      end
  | Rep p lo hi => rep p lo hi s k
  end.

(** Length of the match of [r] at the start of [s], if there is one. *)
Definition match_len (r : regex) (s : string) : option nat :=
  (λ rest, String.length s - String.length rest) <$> run r s Some.

(** [re.match(r, s)] used as a condition. *)
Definition matches (r : regex) (s : string) : bool :=
  bool_decide (is_Some (match_len r s)).

(** Length of the first match of [r] at the start of [s] that is not
    empty: the matcher backtracks over the empty ones. *)
Definition match_len_nonempty (r : regex) (s : string) : option nat :=
  (λ rest, String.length s - String.length rest) <$>
  run r s (λ rest,
    if String.length rest =? String.length s then None else Some rest).

(** [r.findall(s)] for a pattern without groups: the non-overlapping
    matches, scanning left to right. [skip] counts the characters of the
    current match that are still to be stepped over. After an empty
    match the search is taken up at the same position for a match that
    is not empty, and moves on by one character if there is none. *)
Fixpoint findall_from (r : regex) (s : string) (skip : nat) : list string :=
  match s with
  | EmptyString =>
      match skip, match_len r s with
      | 0, Some _ => [EmptyString]
      | _, _ => []
      end
  | String _ s' =>
      match skip with
      | S n => findall_from r s' n
      | 0 =>
          match match_len r s with
          | Some 0 =>
              EmptyString ::
              match match_len_nonempty r s with
              | Some n =>
                  String.substring 0 n s :: findall_from r s' (Nat.pred n)
              | None => findall_from r s' 0
              end
          | Some n => String.substring 0 n s :: findall_from r s' (Nat.pred n)
          | None => findall_from r s' 0
          end
      end
  end.

Definition findall (r : regex) (s : string) : list string :=
  findall_from r s 0.

(** A literal word. *)
Fixpoint lit (w : string) : regex :=
  match w with
  | EmptyString => Eps
  | String c w' => Cat (Chr c) (lit w')
  end.

(** Pattern syntax: [\d], [x{n}], [x+], [x*], [x{n,m}]. *)
Definition digit : ascii → bool := Py.is_digit.
Definition exactly (n : nat) (p : ascii → bool) : regex := Rep p n (Some n).
Definition plus (p : ascii → bool) : regex := Rep p 1 None.
Definition star (p : ascii → bool) : regex := Rep p 0 None.
Definition between (lo hi : nat) (p : ascii → bool) : regex := Rep p lo (Some hi).

End Re.

Notation "r1 ⋅ r2" := (Re.Cat r1 r2) (at level 41, right associativity).

(** ** Module-level constants (lines 24 to 31) *)

(** [zipPatt = re.compile(r'\d{5}(?:-\d{4})?')] *)
Definition zipPatt : Re.regex :=
  Re.exactly 5 Re.digit ⋅ Re.Opt (Re.Chr "-" ⋅ Re.exactly 4 Re.digit).

(** [phonePatt = re.compile(r'\(?\d{3}\)? -?\d{3}-? *-?\d{4}')] *)
Definition phonePatt : Re.regex :=
  Re.Opt (Re.Chr "(") ⋅ Re.exactly 3 Re.digit ⋅ Re.Opt (Re.Chr ")") ⋅
  Re.Chr " " ⋅ Re.Opt (Re.Chr "-") ⋅ Re.exactly 3 Re.digit ⋅
  Re.Opt (Re.Chr "-") ⋅ Re.star (Ascii.eqb " ") ⋅ Re.Opt (Re.Chr "-") ⋅
  Re.exactly 4 Re.digit.

(** [dimension_patt = re.compile(r'\d+px|\d+em|\d+pt|\d+rem')] *)
Definition dimension_patt : Re.regex :=
  Re.Alt (Re.plus Re.digit ⋅ Re.lit "px")
    (Re.Alt (Re.plus Re.digit ⋅ Re.lit "em")
       (Re.Alt (Re.plus Re.digit ⋅ Re.lit "pt")
          (Re.plus Re.digit ⋅ Re.lit "rem"))).

Definition is_hex_lower (c : ascii) : bool :=
  let n := nat_of_ascii c in
  ((97 <=? n) && (n <=? 102)) || Py.is_digit c.

(** [hash_patt = re.compile(r'[a-f0-9]{32,64}')] *)
Definition hash_patt : Re.regex := Re.between 32 64 is_hex_lower.

(** [base_url = 'https://casl.website/'] *)
Definition base_url : string := "https://casl.website/".

(** The host string tested by [extract_urls]. *)
Definition crawl_domain : string := "casl.website".

(** ** The parsed document

    [BeautifulSoup(page_content, 'html.parser')] is an external
    collaborator. The program reads three things off the tree, all of
    them after the script and style elements are decomposed: the visible
    text [soup.get_text(separator=" ", strip=True)], the [src] values of
    [soup.find_all('img', src=True)] and the [href] values of
    [soup.find_all('a', href=True)], both in document order. *)
Record soup : Type := Soup {
  a_href : list string;
  img_src : list string;
  get_text : string
}.

(** ** Extractors (lines 43 to 65) *)

Definition in_domain (href : string) : bool :=
  Py.contains crawl_domain href.

Definition extract_urls (sp : soup) : gset string :=
  fold_left
    (λ (urls : gset string) href,
       if Py.startswith "http" href || Py.startswith "https" href then
         if in_domain href then urls ∪ {[href]} else urls
       else urls)
    (a_href sp) ∅.

(** The body of the loop of [extract_image_urls] for one [src] value;
    [base] is the global [base_url]. *)
Definition resolve_image_url (base img_url : string) : string :=
  if Py.startswith "/" img_url then base +:+ Py.lstrip_slash img_url
  else img_url.

Definition extract_image_urls_from (base : string) (sp : soup) : gset string :=
  fold_left
    (λ (image_urls : gset string) img_url,
       image_urls ∪ {[resolve_image_url base img_url]})
    (img_src sp) ∅.

Definition extract_image_urls : soup → gset string :=
  extract_image_urls_from base_url.

Definition extract_phone_numbers (text : string) : gset string :=
  list_to_set (Re.findall phonePatt text).

Definition extract_zip_codes (text : string) : gset string :=
  list_to_set (Re.findall zipPatt text).

(** ** Iterating over a Python set

    The order in which a [set] is iterated is not specified. An
    [iteration] fixes one order per occasion (the occasions of a run are
    numbered), so a statement quantified over every [iteration] covers
    every order the interpreter may choose. *)
Record iteration : Type := Iteration {
  iterate : nat → gset string → list string;
  iterate_elem : ∀ n X x, x ∈ iterate n X ↔ x ∈ X;
  iterate_NoDup : ∀ n X, NoDup (iterate n X)
}.

(** The order of stdpp's [elements], on every occasion. *)
Definition elements_iteration : iteration :=
  {| iterate := λ _ X, elements X;
     iterate_elem := λ _ X x, elem_of_elements X x;
     iterate_NoDup := λ _ X, NoDup_elements X |}.

Lemma reverse_elements_elem (n : nat) (X : gset string) (x : string) :
  x ∈ reverse (elements X) ↔ x ∈ X.
Proof. rewrite elem_of_reverse. apply elem_of_elements. Qed.

Lemma reverse_elements_NoDup (n : nat) (X : gset string) :
  NoDup (reverse (elements X)).
Proof. rewrite reverse_Permutation. apply NoDup_elements. Qed.

(** The reverse of that order, on every occasion. *)
Definition reverse_iteration : iteration :=
  {| iterate := λ _ X, reverse (elements X);
     iterate_elem := reverse_elements_elem;
     iterate_NoDup := reverse_elements_NoDup |}.

(** ** Lexical filter (lines 67 to 80) *)

Section lexical.

(** [set(stopwords.words('english'))], the NLTK tokenizer, tagger and
    lemmatizer. *)
Variable stopwords_set : gset string.
Variable word_tokenize : string → list string.
Variable pos_tag : list string → list (string * string).
Variable lemmatize : string → string.

(** The condition of the [if] in the loop: the token is skipped. *)
Definition non_content (word : string) : bool :=
  bool_decide (Py.lower word ∈ stopwords_set)
  || Re.matches dimension_patt word
  || Re.matches hash_patt word
  || Py.contains word Py.punctuation
  || Py.isnumeric word
  || Py.startswith "http" word
  || Py.startswith "//" word
  || Py.contains "=" word.

Definition filter_non_content_words (tokens : list string) : list string :=
  fold_left
    (λ filtered_tokens word,
       if non_content word then filtered_tokens
       else filtered_tokens ++ [word])
    tokens [].

(** ** Lexical analysis (lines 82 to 104) *)

Definition extract_vocabulary (text : string) : gset string :=
  let tokens := word_tokenize (Py.lower text) in
  let filtered_tokens := filter_non_content_words tokens in
  list_to_set filtered_tokens.

(** [Counter(l)]: one increment per element of [l]. *)
Definition Counter (l : list string) : gmap string nat :=
  fold_left (λ (m : gmap string nat) w, <[w := S (default 0 (m !! w))]> m) l ∅.

Record lexical_result : Type := LexicalResult {
  refined_verbs : list string;
  refined_nouns : list string;
  verb_freq : gmap string nat;
  noun_freq : gmap string nat
}.

(** The loop over the tagged tokens, on the pair of candidate sets. *)
Definition tag_step (acc : gset string * gset string) (wt : string * string)
    : gset string * gset string :=
  let '(verbs, nouns) := acc in
  let '(word, tag) := wt in
  let lemmatized_word := lemmatize (Py.lower word) in
  if Py.startswith "VB" tag && negb (bool_decide (lemmatized_word ∈ stopwords_set))
  then (verbs ∪ {[lemmatized_word]}, nouns)
  else if Py.startswith "NN" tag && negb (bool_decide (lemmatized_word ∈ stopwords_set))
  then (verbs, nouns ∪ {[lemmatized_word]})
  else (verbs, nouns).

(** [list(refined_verbs)] is occasion 0 of [it], [list(refined_nouns)]
    occasion 1. *)
Definition refine_verbs_and_nouns (it : iteration) (text : string)
    : lexical_result :=
  let tokens := word_tokenize text in
  let pos_tags := pos_tag tokens in
  let '(verbs, nouns) := fold_left tag_step pos_tags (∅, ∅) in
  let verbs := filter_non_content_words (iterate it 0 verbs) in
  let nouns := filter_non_content_words (iterate it 1 nouns) in
  {| refined_verbs := verbs; refined_nouns := nouns;
     verb_freq := Counter verbs; noun_freq := Counter nouns |}.

End lexical.

(** ** Traversal (lines 106 to 135)

    The local variables of [scrape_site] during the [while] loop. The
    Python list [pages_to_visit] is used as a stack; it is kept here
    with its last element first, so [pop()] takes the head and
    [extend(xs)] puts the elements of [xs] on top one after the other.
    [fetch_log] and [extract_log] are not in the program: they record,
    in order, the URLs handed to [fetch_page] and the URLs for which the
    body of [if page_content:] ran. *)
Record crawl_state : Type := CrawlState {
  visited_urls : gset string;
  all_image_urls : gset string;
  all_phone_numbers : gset string;
  all_zip_codes : gset string;
  all_text : list string;
  pages_to_visit : list string;
  fetch_log : list string;
  extract_log : list string
}.

Definition extend (stack xs : list string) : list string :=
  reverse xs ++ stack.

Definition initial_state (url : string) : crawl_state :=
  {| visited_urls := ∅; all_image_urls := ∅; all_phone_numbers := ∅;
     all_zip_codes := ∅; all_text := []; pages_to_visit := [url];
     fetch_log := []; extract_log := [] |}.

Section crawl.

(** The site answers every request for a URL the same way during a run:
    a URL outside the map fails to fetch ([fetch_page] returns [None]),
    a URL in the map yields its response text. The last part of the
    file has the loop for a network whose answers change during the
    run. *)
Variable site : gmap string string.
Variable html_parser : string → soup.
Variable it : iteration.

Definition fetch_page (url : string) : option string := site !! url.

(** The condition of [if page_content:] for the answer to [url]: the
    fetch returned a text, and the text is not empty. *)
Definition fetch_ok (url : string) : bool :=
  match fetch_page url with
  | Some page_content => Py.truthy page_content
  | None => false
  end.

(** The text and the parsed document the site holds for [url]. *)
Definition page_content_of (url : string) : string :=
  default EmptyString (site !! url).

Definition page_soup (url : string) : soup :=
  html_parser (page_content_of url).

(** Lines 121 to 135: the body of [if page_content:]. The set
    difference handed to [extend] is iterated on the occasion numbered
    by the pages processed so far. *)
Definition process_page (current_url page_content : string)
    (st : crawl_state) : crawl_state :=
  let sp := html_parser page_content in
  let visited := visited_urls st ∪ {[current_url]} in
  let new_urls := extract_urls sp in
  {| visited_urls := visited;
     all_image_urls := all_image_urls st ∪ extract_image_urls sp;
     all_phone_numbers := all_phone_numbers st ∪ extract_phone_numbers page_content;
     all_zip_codes := all_zip_codes st ∪ extract_zip_codes page_content;
     all_text := all_text st ++ [get_text sp];
     pages_to_visit :=
       extend (pages_to_visit st)
         (iterate it (length (extract_log st)) (new_urls ∖ visited));
     fetch_log := fetch_log st;
     extract_log := extract_log st ++ [current_url] |}.

Definition set_pages_to_visit (l : list string) (st : crawl_state) : crawl_state :=
  {| visited_urls := visited_urls st; all_image_urls := all_image_urls st;
     all_phone_numbers := all_phone_numbers st;
     all_zip_codes := all_zip_codes st; all_text := all_text st;
     pages_to_visit := l;
     fetch_log := fetch_log st; extract_log := extract_log st |}.

Definition log_fetch (url : string) (st : crawl_state) : crawl_state :=
  {| visited_urls := visited_urls st; all_image_urls := all_image_urls st;
     all_phone_numbers := all_phone_numbers st;
     all_zip_codes := all_zip_codes st; all_text := all_text st;
     pages_to_visit := pages_to_visit st;
     fetch_log := fetch_log st ++ [url]; extract_log := extract_log st |}.

(** Lines 115 to 135: one turn of the [while] loop, for a stack with
    [current_url] on top of [rest]. *)
Definition loop_body (current_url : string) (rest : list string)
    (st : crawl_state) : crawl_state :=
  let st := set_pages_to_visit rest st in
  if decide (current_url ∈ visited_urls st) then st
  else
    let st := log_fetch current_url st in
    match fetch_page current_url with
    | Some page_content =>
        if Py.truthy page_content then process_page current_url page_content st
        else st
    | None => st
    end.

(** Lines 114 to 135: the [while pages_to_visit:] loop, with a bound on
    the number of turns. [None] means the bound was too small. *)
Fixpoint scrape_loop (fuel : nat) (st : crawl_state) : option crawl_state :=
  match pages_to_visit st with
  | [] => Some st
  | current_url :: rest =>
      match fuel with
      | 0 => None
      | S fuel' => scrape_loop fuel' (loop_body current_url rest st)
      end
  end.

(** The number of links a page can put on the stack, summed over the
    pages of a site. *)
Definition link_weight (m : gmap string string) : nat :=
  map_fold (λ _ page_content n, size (extract_urls (html_parser page_content)) + n) 0 m.

(** A number of turns that is enough for every seed (see
    [scrape_loop_enough]). *)
Definition crawl_fuel : nat := S (link_weight site).

(** Lines 107 to 135 of [scrape_site]. *)
Definition crawl (url : string) : option crawl_state :=
  scrape_loop crawl_fuel (initial_state url).

End crawl.

(** ** The result of [scrape_site] (lines 137 to 152) *)

Record crawl_result : Type := CrawlResult {
  unique_urls : gset string;
  image_urls : gset string;
  phone_numbers : gset string;
  zip_codes : gset string;
  vocabulary : gset string;
  verbs : list string;
  nouns : list string;
  result_verb_freq : gmap string nat;
  result_noun_freq : gmap string nat
}.

Definition newline : string := String "010" EmptyString.

Definition scrape_site (stopwords_set : gset string)
    (word_tokenize : string → list string)
    (pos_tag : list string → list (string * string))
    (lemmatize : string → string)
    (site : gmap string string) (html_parser : string → soup)
    (it lex_it : iteration) (url : string) : option crawl_result :=
  st ← crawl site html_parser it url;
  let all_text_content := Py.join newline (all_text st) in
  let lex :=
    refine_verbs_and_nouns stopwords_set word_tokenize pos_tag lemmatize
      lex_it all_text_content in
  Some {| unique_urls := visited_urls st;
          image_urls := all_image_urls st;
          phone_numbers := all_phone_numbers st;
          zip_codes := all_zip_codes st;
          vocabulary :=
            extract_vocabulary stopwords_set word_tokenize all_text_content;
          verbs := refined_verbs lex;
          nouns := refined_nouns lex;
          result_verb_freq := verb_freq lex;
          result_noun_freq := noun_freq lex |}.

(** ** Worked inputs *)

Definition sample_text : string :=
  "Call us at (555) 123-4567 or 555-987-6543 near zip 30301-1234".

(** A parser given by a table from response texts to documents; a text
    outside the table parses to the empty document. *)
Definition table_parser (t : gmap string soup) : string → soup :=
  λ page_content, default (Soup [] [] EmptyString) (t !! page_content).

Definition url_home : string := "https://casl.website/".
Definition url_about : string := "https://casl.website/about".
Definition url_gone : string := "https://casl.website/gone".

(** Two pages that link to each other. *)
Definition site_cycle : gmap string string :=
  {[ url_home := "home"; url_about := "about" ]}.

Definition parser_cycle : string → soup :=
  table_parser {[ "home" := Soup [url_about] [] "Home";
                  "about" := Soup [url_home] [] "About" ]}.

(** Two pages that both link to a URL that does not answer. *)
Definition site_dead_link : gmap string string :=
  {[ url_home := "home"; url_about := "about" ]}.

Definition parser_dead_link : string → soup :=
  table_parser {[ "home" := Soup [url_gone; url_about] [] "Home";
                  "about" := Soup [url_gone] [] "About" ]}.

(** The seed answers with an empty body. *)
Definition site_empty_seed : gmap string string :=
  {[ base_url := EmptyString ]}.

Definition parser_no_links : string → soup :=
  λ _, Soup [] [] EmptyString.

(** The reading of the words of the specification for the punctuation
    case of the lexical filter: a token is pure punctuation when it has
    at least one character and every character of it is one of
    [string.punctuation]. It is compared with the test the source
    makes, [word in string.punctuation]. *)
Definition is_punctuation_char (c : ascii) : bool :=
  Py.contains (String c EmptyString) Py.punctuation.

Definition spec_pure_punctuation (word : string) : bool :=
  Py.truthy word && Py.all_chars is_punctuation_char word.

(** * Properties *)

(** ** Pattern matchers on the sample text *)

Lemma findall_phone_sample :
  Re.findall phonePatt sample_text = ["(555) 123-4567"].
Proof. vm_compute. reflexivity. Qed.

Lemma findall_zip_sample :
  Re.findall zipPatt sample_text = ["30301-1234"].
Proof. vm_compute. reflexivity. Qed.

(** The matcher on small inputs: the optional group of [zipPatt] is
    taken when it can be and given up when it cannot; [re.match] is
    anchored at the start only; a repetition gives characters back. *)
Lemma matcher_cases :
  Re.findall zipPatt "30301-1234" = ["30301-1234"] ∧
  Re.findall zipPatt "30301-12" = ["30301"] ∧
  Re.findall zipPatt "1234567890" = ["12345"; "67890"] ∧
  Re.matches dimension_patt "12px" = true ∧
  Re.matches dimension_patt "12pxs" = true ∧
  Re.matches dimension_patt "w12px" = false ∧
  Re.matches dimension_patt "3rem" = true ∧
  Re.matches hash_patt "0123456789abcdef0123456789abcdef" = true ∧
  Re.matches hash_patt "0123456789abcdef0123456789abcde" = false ∧
  Re.match_len (Re.star Re.digit ⋅ Re.Chr "1") "2111" = Some 4 ∧
  Re.match_len (Re.between 1 2 Re.digit) "2111" = Some 2.
Proof. vm_compute. done. Qed.

(** After an empty match the same position is tried again for a match
    that is not empty: the pattern [(?:|a)] on [a]. *)
Lemma findall_empty_match :
  Re.findall (Re.Alt Re.Eps (Re.Chr "a")) "a" = [EmptyString; "a"; EmptyString].
Proof. vm_compute. reflexivity. Qed.

(** The hyphenated form alone is no match of [phonePatt]: after the
    area code and the optional closing parenthesis the pattern has a
    mandatory space. *)
Lemma phone_hyphenated_no_match :
  Re.findall phonePatt "555-987-6543" = [] ∧
  Re.findall phonePatt "555 -987-6543" = ["555 -987-6543"] ∧
  Re.findall phonePatt "555 987-6543" = ["555 987-6543"].
Proof. vm_compute. done. Qed.

(** C3. On the sample text [extract_zip_codes] returns exactly the
    extended code, and [extract_phone_numbers] returns the parenthesised
    number only: the hyphenated number 555-987-6543 is not in the set,
    because [phonePatt] requires a space after the area code. *)
Theorem sample_text_extraction :
  extract_zip_codes sample_text = {[ "30301-1234" ]} ∧
  "(555) 123-4567" ∈ extract_phone_numbers sample_text ∧
  ("555-987-6543" ∉ extract_phone_numbers sample_text) ∧
  extract_phone_numbers sample_text = {[ "(555) 123-4567" ]}.
Proof.
  unfold extract_zip_codes, extract_phone_numbers.
  rewrite findall_zip_sample, findall_phone_sample. simpl.
  rewrite !(right_id_L ∅ (∪)).
  split_and!; [done | set_solver | | done].
  rewrite elem_of_singleton. discriminate.
Qed.

(** ** Image URL resolution *)

Lemma lstrip_slash_cons (c : ascii) (s : string) :
  Py.lstrip_slash (String c s)
  = if Ascii.eqb "/" c then Py.lstrip_slash s else String c s.
Proof. by destruct c as [[] [] [] [] [] [] [] []]. Qed.

Lemma lstrip_slash_no_slash (s : string) :
  Py.startswith "/" (Py.lstrip_slash s) = false.
Proof.
  induction s as [|c s IH]; [done|].
  rewrite lstrip_slash_cons.
  destruct (Ascii.eqb "/" c) eqn:Hc; [exact IH|].
  cbn -[Ascii.eqb]. by rewrite Hc.
Qed.

Lemma startswith_slash_app (base s : string) :
  Py.startswith "/" base = false →
  Py.startswith "/" (base +:+ Py.lstrip_slash s) = false.
Proof.
  destruct base as [|c base]; simpl.
  - intros _. apply lstrip_slash_no_slash.
  - by destruct (Ascii.eqb "/" c).
Qed.

Lemma resolve_absolute (base img_url : string) :
  Py.startswith "/" img_url = false → resolve_image_url base img_url = img_url.
Proof. unfold resolve_image_url. by intros ->. Qed.

Lemma resolve_root_relative (base img_url : string) :
  Py.startswith "/" img_url = true →
  resolve_image_url base img_url = base +:+ Py.lstrip_slash img_url.
Proof. unfold resolve_image_url. by intros ->. Qed.

Lemma resolve_idempotent (base img_url : string) :
  Py.startswith "/" base = false →
  resolve_image_url base (resolve_image_url base img_url)
  = resolve_image_url base img_url.
Proof.
  intros Hbase.
  destruct (Py.startswith "/" img_url) eqn:Hs.
  - rewrite (resolve_root_relative _ _ Hs).
    apply resolve_absolute, startswith_slash_app, Hbase.
  - by rewrite !(resolve_absolute _ _ Hs).
Qed.

Lemma extract_image_urls_from_spec (base : string) (sp : soup) :
  extract_image_urls_from base sp
  = list_to_set (resolve_image_url base <$> img_src sp).
Proof.
  unfold extract_image_urls_from.
  assert (∀ l (X : gset string),
    fold_left (λ (image_urls : gset string) img_url,
       image_urls ∪ {[resolve_image_url base img_url]}) l X
    = X ∪ list_to_set (resolve_image_url base <$> l)) as H.
  { induction l as [|x l IH]; intros X; simpl; [set_solver|].
    rewrite IH. set_solver. }
  rewrite H. set_solver.
Qed.

(** C8. A source that does not start with a slash is returned
    unchanged, whatever the base; with a base that does not itself start
    with a slash (the configured one does not), resolving twice is
    resolving once; and [/img/a.png] against [https://example.test/] is
    the plain concatenation [https://example.test/img/a.png], also as
    the set [extract_image_urls] builds for a document with that one
    image. *)
Theorem image_url_resolution :
  (∀ base img_url,
     Py.startswith "/" img_url = false →
     resolve_image_url base img_url = img_url) ∧
  (∀ img_url,
     resolve_image_url base_url (resolve_image_url base_url img_url)
     = resolve_image_url base_url img_url) ∧
  resolve_image_url "https://example.test/" "/img/a.png"
  = "https://example.test/img/a.png" ∧
  (∀ links text,
     extract_image_urls_from "https://example.test/"
       (Soup links ["/img/a.png"; "https://example.test/img/a.png"] text)
     = {[ "https://example.test/img/a.png" ]}).
Proof.
  split_and!.
  - apply resolve_absolute.
  - intros. by apply resolve_idempotent.
  - reflexivity.
  - intros. rewrite extract_image_urls_from_spec. simpl. set_solver.
Qed.

Lemma image_url_resolution_witness :
  Py.startswith "/" "https://example.test/img/a.png" = false ∧
  resolve_image_url base_url "https://example.test/img/a.png"
  = "https://example.test/img/a.png".
Proof.
  split; [reflexivity|].
  apply (proj1 image_url_resolution). reflexivity.
Defined.

(** C10. A source that starts with two slashes is not kept: every
    leading slash is stripped and what is left is appended to the base.
    With the configured base the result differs from the source, and
    [//cdn.example.com/a.png] becomes
    [https://casl.website/cdn.example.com/a.png]. *)
Theorem protocol_relative_image_rewritten :
  (∀ base rest,
     resolve_image_url base ("//" +:+ rest) = base +:+ Py.lstrip_slash rest) ∧
  (∀ rest, resolve_image_url base_url ("//" +:+ rest) ≠ "//" +:+ rest) ∧
  resolve_image_url base_url "//cdn.example.com/a.png"
  = "https://casl.website/cdn.example.com/a.png" ∧
  (∀ links text,
     extract_image_urls (Soup links ["//cdn.example.com/a.png"] text)
     = {[ "https://casl.website/cdn.example.com/a.png" ]}).
Proof.
  split_and!.
  - reflexivity.
  - intros rest. discriminate.
  - reflexivity.
  - intros. unfold extract_image_urls.
    rewrite extract_image_urls_from_spec. simpl. set_solver.
Qed.

(** ** Lexical filter *)

(** The tokens the filter keeps. *)
Definition content_word (stopwords_set : gset string) (word : string) : bool :=
  negb (non_content stopwords_set word).

Section lexical_filter_properties.

Variable stopwords_set : gset string.

Lemma filter_loop_spec (tokens acc : list string) :
  fold_left
    (λ filtered_tokens word,
       if non_content stopwords_set word then filtered_tokens
       else filtered_tokens ++ [word])
    tokens acc
  = acc ++ List.filter (content_word stopwords_set) tokens.
Proof.
  revert acc. induction tokens as [|word tokens IH]; intros acc; simpl.
  - by rewrite app_nil_r.
  - rewrite IH. unfold content_word.
    destruct (non_content stopwords_set word); simpl; [done|].
    by rewrite <-app_assoc.
Qed.

(** The loop of [filter_non_content_words] keeps, in order and with
    their multiplicity, exactly the tokens for which the condition of
    its [if] is false. *)
Lemma filter_non_content_words_spec (tokens : list string) :
  filter_non_content_words stopwords_set tokens = List.filter (content_word stopwords_set) tokens.
Proof. unfold filter_non_content_words. by rewrite filter_loop_spec. Qed.

Lemma filter_non_content_words_elem (tokens : list string) (word : string) :
  word ∈ filter_non_content_words stopwords_set tokens
  ↔ word ∈ tokens ∧ non_content stopwords_set word = false.
Proof.
  rewrite filter_non_content_words_spec, !list_elem_of_In, filter_In.
  unfold content_word. by rewrite negb_true_iff.
Qed.

Lemma filter_non_content_words_sublist (tokens : list string) :
  sublist (filter_non_content_words stopwords_set tokens) tokens.
Proof.
  rewrite filter_non_content_words_spec.
  induction tokens as [|word tokens IH]; simpl; [constructor|].
  destruct (content_word _ _); by constructor.
Qed.

Lemma filter_non_content_words_NoDup (tokens : list string) :
  NoDup tokens → NoDup (filter_non_content_words stopwords_set tokens).
Proof. intros H. eapply sublist_NoDup; [done|apply filter_non_content_words_sublist]. Qed.

Lemma filter_keep_all (f : string → bool) (l : list string) :
  (∀ x, x ∈ l → f x = true) → List.filter f l = l.
Proof.
  induction l as [|x l IH]; intros H; simpl; [done|].
  rewrite (H x) by constructor.
  f_equal. apply IH. intros y Hy. apply H. by constructor.
Qed.

End lexical_filter_properties.

(** C9. Filtering a filtered sequence changes nothing, for every stop
    word set and every token sequence. *)
Theorem filter_non_content_words_idempotent
    (stopwords_set : gset string) (tokens : list string) :
  filter_non_content_words stopwords_set
    (filter_non_content_words stopwords_set tokens)
  = filter_non_content_words stopwords_set tokens.
Proof.
  rewrite (filter_non_content_words_spec _ (filter_non_content_words _ _)).
  apply filter_keep_all. intros word Hword.
  apply filter_non_content_words_elem in Hword as [_ Hword].
  unfold content_word. by rewrite Hword.
Qed.

(** C6. The token [...] has only punctuation characters, and the filter
    keeps it: the source tests [word in string.punctuation], which holds
    for the contiguous pieces of that one string only, and [...] is not
    one of them. *)
Theorem pure_punctuation_token_kept (stopwords_set : gset string) :
  "..." ∉ stopwords_set →
  spec_pure_punctuation "..." = true ∧
  Py.contains "..." Py.punctuation = false ∧
  filter_non_content_words stopwords_set ["..."] = ["..."].
Proof.
  intros Hstop. split_and!; [reflexivity..|].
  rewrite filter_non_content_words_spec. simpl.
  unfold content_word, non_content.
  rewrite bool_decide_eq_false_2 by exact Hstop.
  reflexivity.
Qed.

Lemma pure_punctuation_token_kept_witness :
  ("..." ∉ ({[ "the"; "and" ]} : gset string)) ∧
  filter_non_content_words {[ "the"; "and" ]} ["..."] = ["..."].
Proof.
  assert (H : "..." ∉ ({[ "the"; "and" ]} : gset string)).
  { apply (bool_decide_eq_false_1 _). vm_compute. reflexivity. }
  split; [exact H|].
  apply (pure_punctuation_token_kept {[ "the"; "and" ]} H).
Defined.

(** What the punctuation test of the source does accept and reject. *)
Lemma punctuation_test_cases :
  Py.contains "." Py.punctuation = true ∧
  Py.contains "<=>" Py.punctuation = true ∧
  Py.contains EmptyString Py.punctuation = true ∧
  Py.contains "--" Py.punctuation = false ∧
  Py.contains "''" Py.punctuation = false ∧
  spec_pure_punctuation "--" = true ∧
  spec_pure_punctuation "''" = true ∧
  spec_pure_punctuation EmptyString = false.
Proof. vm_compute. done. Qed.

(** ** Frequencies *)

Definition occurrences (w : string) (l : list string) : nat :=
  length (filter (λ x, x = w) l).

Lemma occurrences_cons (w x : string) (l : list string) :
  occurrences w (x :: l)
  = if decide (x = w) then S (occurrences w l) else occurrences w l.
Proof. unfold occurrences. rewrite filter_cons. by case_decide. Qed.

Lemma occurrences_not_elem (w : string) (l : list string) :
  w ∉ l → occurrences w l = 0.
Proof.
  induction l as [|x l IH]; [done|].
  rewrite not_elem_of_cons, occurrences_cons. intros [Hx Hl].
  case_decide; [congruence|by apply IH].
Qed.

Lemma occurrences_NoDup (w : string) (l : list string) :
  NoDup l → occurrences w l ≤ 1.
Proof.
  induction 1 as [|x l Hx _ IH]; [unfold occurrences; simpl; lia|].
  rewrite occurrences_cons. case_decide as Hw; [|done].
  subst x. by rewrite occurrences_not_elem.
Qed.

Lemma Counter_loop_lookup (l : list string) (m : gmap string nat) (w : string) :
  fold_left (λ (m : gmap string nat) w, <[w := S (default 0 (m !! w))]> m) l m !! w
  = match occurrences w l with
    | 0 => m !! w
    | S _ => Some (default 0 (m !! w) + occurrences w l)
    end.
Proof.
  revert m. induction l as [|x l IH]; intros m; [done|].
  cbn [fold_left]. rewrite IH, occurrences_cons.
  case_decide as Hx.
  - subst x. rewrite lookup_insert_eq. simpl.
    destruct (occurrences w l); f_equal; lia.
  - by rewrite lookup_insert_ne.
Qed.

(** [Counter(l)[w]] is the number of occurrences of [w] in [l], and [w]
    is a key exactly when it occurs. *)
Lemma Counter_lookup (l : list string) (w : string) :
  Counter l !! w
  = match occurrences w l with 0 => None | S n => Some (S n) end.
Proof.
  unfold Counter. rewrite Counter_loop_lookup, lookup_empty.
  by destruct (occurrences w l).
Qed.

Lemma Counter_NoDup_values (l : list string) :
  NoDup l → map_Forall (λ _ c, c = 1) (Counter l).
Proof.
  intros Hl w c. rewrite Counter_lookup.
  pose proof (occurrences_NoDup w l Hl).
  destruct (occurrences w l) as [|n]; [done|]. intros [= <-]. lia.
Qed.

Lemma refined_lists_NoDup stopwords_set word_tokenize pos_tag lemmatize it text :
  let r := refine_verbs_and_nouns stopwords_set word_tokenize pos_tag
             lemmatize it text in
  NoDup (refined_verbs r) ∧ NoDup (refined_nouns r).
Proof.
  unfold refine_verbs_and_nouns.
  destruct (fold_left _ _ _) as [vs ns]. simpl.
  split; apply filter_non_content_words_NoDup, iterate_NoDup.
Qed.

(** C7. For every text, tokenizer, tagger, lemmatizer, stop word set
    and iteration order, every value of the verb frequencies and of the
    noun frequencies returned by [refine_verbs_and_nouns] is 1: the
    counted lists are the filtered candidate sets, which have no
    repeated element. *)
Theorem frequencies_all_one stopwords_set word_tokenize pos_tag lemmatize
    it text :
  let r := refine_verbs_and_nouns stopwords_set word_tokenize pos_tag
             lemmatize it text in
  map_Forall (λ _ c, c = 1) (verb_freq r) ∧
  map_Forall (λ _ c, c = 1) (noun_freq r) ∧
  verb_freq r = Counter (refined_verbs r) ∧
  noun_freq r = Counter (refined_nouns r).
Proof.
  intros r.
  destruct (refined_lists_NoDup stopwords_set word_tokenize pos_tag
              lemmatize it text) as [Hv Hn].
  fold r in Hv, Hn.
  assert (verb_freq r = Counter (refined_verbs r)
          ∧ noun_freq r = Counter (refined_nouns r)) as [Ev En].
  { subst r. unfold refine_verbs_and_nouns.
    by destruct (fold_left _ _ _) as [vs ns]. }
  split_and!; [rewrite Ev|rewrite En|done..];
    by apply Counter_NoDup_values.
Qed.

(** ** Traversal: the loop *)

Lemma extract_urls_elem (sp : soup) (v : string) :
  v ∈ extract_urls sp
  ↔ v ∈ a_href sp
    ∧ Py.startswith "http" v || Py.startswith "https" v = true
    ∧ in_domain v = true.
Proof.
  unfold extract_urls.
  enough (∀ l (X : gset string),
    v ∈ fold_left
          (λ (urls : gset string) href,
             if Py.startswith "http" href || Py.startswith "https" href then
               if in_domain href then urls ∪ {[href]} else urls
             else urls) l X
    ↔ v ∈ X ∨ (v ∈ l
                ∧ Py.startswith "http" v || Py.startswith "https" v = true
                ∧ in_domain v = true)) as H.
  { rewrite H. set_solver. }
  induction l as [|x l IH]; intros X; cbn [fold_left].
  - set_solver.
  - rewrite IH, elem_of_cons.
    destruct (Py.startswith "http" x || Py.startswith "https" x) eqn:E1;
      [destruct (in_domain x) eqn:E2|].
    + rewrite elem_of_union, elem_of_singleton.
      split; [intros [[?| ->]|?]|intros [?|[[ ->|?] ?]]]; tauto.
    + split; [tauto|]. intros [?|[[ ->|?] (? & ?)]]; [tauto|congruence|tauto].
    + split; [tauto|]. intros [?|[[ ->|?] (? & ?)]]; [tauto|congruence|tauto].
Qed.

Lemma length_iterate (it : iteration) (n : nat) (X : gset string) :
  length (iterate it n X) = size X.
Proof.
  unfold size, set_size. simpl. apply Permutation_length.
  apply NoDup_Permutation; [apply iterate_NoDup|apply NoDup_elements|].
  intros x. by rewrite iterate_elem, elem_of_elements.
Qed.

Section crawl_properties.

Variable site : gmap string string.
Variable html_parser : string → soup.
Variable it : iteration.

Local Abbreviation turn := (loop_body site html_parser it).
Local Abbreviation loop := (scrape_loop site html_parser it).
Local Abbreviation process := (process_page html_parser it).

(** A property kept by every turn of the loop holds when the loop ends. *)
Lemma scrape_loop_invariant (P : crawl_state → Prop) :
  (∀ u rest st, pages_to_visit st = u :: rest → P st → P (turn u rest st)) →
  ∀ fuel st r, P st → loop fuel st = Some r → P r.
Proof.
  intros Hstep fuel. induction fuel as [|fuel IH]; intros st r HP; simpl.
  - destruct (pages_to_visit st); [|done]. by intros [= <-].
  - destruct (pages_to_visit st) as [|u rest] eqn:E; [by intros [= <-]|].
    apply IH. by apply Hstep.
Qed.

(** The loop ends with an empty stack. *)
Lemma scrape_loop_final (fuel : nat) (st r : crawl_state) :
  loop fuel st = Some r → pages_to_visit r = [].
Proof.
  revert st. induction fuel as [|fuel IH]; intros st; simpl.
  - destruct (pages_to_visit st) eqn:E; [|done]. by intros [= <-].
  - destruct (pages_to_visit st) as [|u rest] eqn:E; [by intros [= <-]|].
    apply IH.
Qed.

Lemma scrape_loop_empty (fuel : nat) (st : crawl_state) :
  pages_to_visit st = [] → loop fuel st = Some st.
Proof. intros E. destruct fuel; simpl; by rewrite E. Qed.

(** More turns than needed change nothing. *)
Lemma scrape_loop_more_fuel (fuel fuel' : nat) (st r : crawl_state) :
  loop fuel st = Some r → fuel ≤ fuel' → loop fuel' st = Some r.
Proof.
  revert fuel' st. induction fuel as [|fuel IH]; intros fuel' st; simpl.
  - destruct (pages_to_visit st) eqn:E; [|done].
    intros [= <-] _. destruct fuel'; simpl; by rewrite E.
  - destruct (pages_to_visit st) as [|u rest] eqn:E.
    + intros [= <-] _. destruct fuel'; simpl; by rewrite E.
    + intros Hr Hle. destruct fuel' as [|fuel']; [lia|].
      simpl. rewrite E. apply IH; [done|lia].
Qed.

(** The three outcomes of one turn. *)
Lemma loop_body_cases (u : string) (rest : list string) (st : crawl_state) :
  (u ∈ visited_urls st ∧ turn u rest st = set_pages_to_visit rest st)
  ∨ ((u ∉ visited_urls st) ∧ fetch_ok site u = false
     ∧ turn u rest st = log_fetch u (set_pages_to_visit rest st))
  ∨ (∃ page_content,
       (u ∉ visited_urls st) ∧ site !! u = Some page_content
       ∧ Py.truthy page_content = true
       ∧ turn u rest st
         = process u page_content (log_fetch u (set_pages_to_visit rest st))).
Proof.
  unfold loop_body, fetch_ok, fetch_page. simpl.
  destruct (decide (u ∈ visited_urls st)) as [Hv|Hv]; [by left|].
  right. destruct (site !! u) as [c|] eqn:Hu; [|by left].
  destruct (Py.truthy c) eqn:Hc; [|by left].
  right. by exists c.
Qed.

(** *** Termination *)

Local Abbreviation weight := (link_weight html_parser).

Lemma link_weight_delete (m : gmap string string) (u page_content : string) :
  m !! u = Some page_content →
  weight m
  = size (extract_urls (html_parser page_content)) + weight (delete u m).
Proof.
  intros Hu. unfold link_weight.
  rewrite (map_fold_delete_L _ _ u page_content m); [done| |done].
  intros. lia.
Qed.

(** The stack length plus the link weight of the pages not yet visited
    goes down at every turn; [rem] holds those pages. *)
Lemma scrape_loop_enough (fuel : nat) :
  ∀ (st : crawl_state) (rem : gmap string string),
    (∀ u c, site !! u = Some c → u ∉ visited_urls st → rem !! u = Some c) →
    length (pages_to_visit st) + weight rem ≤ fuel →
    is_Some (loop fuel st).
Proof.
  induction fuel as [|fuel IH]; intros st rem Hrem Hfuel; simpl.
  - destruct (pages_to_visit st); simpl in *; [eauto|lia].
  - destruct (pages_to_visit st) as [|u rest] eqn:E; [eauto|].
    simpl in Hfuel.
    destruct (loop_body_cases u rest st)
      as [[Hv ->]|[(Hv & Hf & ->)|(c & Hv & Hu & Hc & ->)]].
    + apply (IH _ rem); simpl; [done|lia].
    + apply (IH _ rem); simpl; [done|lia].
    + apply (IH _ (delete u rem)); simpl.
      * intros u' c' Hu' Hv'.
        rewrite lookup_delete_ne by set_solver. apply Hrem; set_solver.
      * unfold extend. rewrite length_app, length_reverse, length_iterate.
        rewrite (link_weight_delete rem u c) in Hfuel by (by apply Hrem).
        match goal with |- context [size (?X ∖ ?Y)] =>
          pose proof (subseteq_size (X ∖ Y) X ltac:(set_solver)) end.
        lia.
Qed.

(** The loop of [scrape_site] ends, for every site, parser, iteration
    order and seed. *)
Lemma crawl_terminates (url : string) :
  is_Some (crawl site html_parser it url).
Proof.
  unfold crawl, crawl_fuel.
  apply (scrape_loop_enough _ _ site); simpl; [done|lia].
Qed.

(** *** The extraction trace *)

Local Abbreviation soup_of := (page_soup site html_parser).
Local Abbreviation content_of := (page_content_of site).

(** What the aggregates are in terms of the URLs whose content was
    extracted. *)
Record trace_inv (st : crawl_state) : Prop := TraceInv {
  trace_NoDup : NoDup (extract_log st);
  trace_visited : visited_urls st = list_to_set (extract_log st);
  trace_ok : ∀ u, u ∈ extract_log st → fetch_ok site u = true;
  trace_text :
    all_text st = (λ u, get_text (soup_of u)) <$> extract_log st;
  trace_images :
    all_image_urls st
    = ⋃ ((λ u, extract_image_urls (soup_of u)) <$> extract_log st);
  trace_phones :
    all_phone_numbers st
    = ⋃ ((λ u, extract_phone_numbers (content_of u)) <$> extract_log st);
  trace_zips :
    all_zip_codes st
    = ⋃ ((λ u, extract_zip_codes (content_of u)) <$> extract_log st)
}.

Lemma trace_inv_initial (url : string) : trace_inv (initial_state url).
Proof.
  split; simpl; try done.
  - constructor.
  - intros u Hu. by apply elem_of_nil in Hu.
Qed.

Lemma union_list_snoc (f : string → gset string) (l : list string) (u : string) :
  ⋃ (f <$> (l ++ [u])) = ⋃ (f <$> l) ∪ f u.
Proof.
  rewrite fmap_app, union_list_app_L. simpl.
  by rewrite (right_id_L ∅ (∪)).
Qed.

Lemma trace_inv_step (u : string) (rest : list string) (st : crawl_state) :
  trace_inv st → trace_inv (turn u rest st).
Proof.
  intros [Hnd Hvis Hok Htext Himg Hph Hzip].
  destruct (loop_body_cases u rest st)
    as [[Hv ->]|[(Hv & Hf & ->)|(c & Hv & Hu & Hc & ->)]];
    [by split..|].
  assert (Hcontent : content_of u = c).
  { unfold page_content_of. by rewrite Hu. }
  assert (Hsoup : soup_of u = html_parser c).
  { unfold page_soup. by rewrite Hcontent. }
  split; simpl.
  - apply NoDup_app. split_and!; [done| |apply NoDup_singleton].
    intros x Hx ->%list_elem_of_singleton. apply Hv. rewrite Hvis.
    by apply elem_of_list_to_set.
  - by rewrite list_to_set_snoc_L, Hvis.
  - intros x [Hx| ->%list_elem_of_singleton]%elem_of_app; [by apply Hok|].
    unfold fetch_ok, fetch_page. by rewrite Hu.
  - rewrite fmap_app, Htext. cbn [fmap list_fmap]. by rewrite Hsoup.
  - rewrite union_list_snoc, Himg. cbv beta. by rewrite Hsoup.
  - rewrite union_list_snoc, Hph. cbv beta. by rewrite Hcontent.
  - rewrite union_list_snoc, Hzip. cbv beta. by rewrite Hcontent.
Qed.

(** *** Fetches of the pages that answer *)

Lemma occurrences_app (w : string) (l k : list string) :
  occurrences w (l ++ k) = occurrences w l + occurrences w k.
Proof. unfold occurrences. by rewrite filter_app, length_app. Qed.

(** A URL whose fetch yields content is fetched once if it is visited
    and has not been fetched otherwise. *)
Definition fetch_inv (st : crawl_state) : Prop :=
  ∀ u, fetch_ok site u = true →
    occurrences u (fetch_log st) = if decide (u ∈ visited_urls st) then 1 else 0.

Lemma fetch_inv_initial (url : string) : fetch_inv (initial_state url).
Proof. intros u _. simpl. by rewrite decide_False by set_solver. Qed.

Lemma fetch_inv_step (u : string) (rest : list string) (st : crawl_state) :
  fetch_inv st → fetch_inv (turn u rest st).
Proof.
  intros Hinv.
  destruct (loop_body_cases u rest st)
    as [[Hv ->]|[(Hv & Hf & ->)|(c & Hv & Hu & Hc & ->)]]; intros x Hx; simpl.
  - by apply Hinv.
  - rewrite occurrences_app, (Hinv x Hx).
    rewrite occurrences_cons.
    destruct (decide (u = x)) as [->|Hux]; [congruence|].
    unfold occurrences. simpl. lia.
  - rewrite occurrences_app, (Hinv x Hx), occurrences_cons.
    unfold occurrences at 1. simpl.
    destruct (decide (u = x)) as [->|Hux].
    + rewrite decide_False by done. rewrite decide_True by set_solver. done.
    + destruct (decide (x ∈ visited_urls st)).
      * rewrite decide_True by set_solver. done.
      * rewrite decide_False by set_solver. done.
Qed.

(** *** The domain boundary *)

(** Whatever is visited or waits on the stack is the seed or passed the
    test of [extract_urls]. *)
Definition domain_inv (seed : string) (st : crawl_state) : Prop :=
  ∀ u, u ∈ visited_urls st ∨ u ∈ pages_to_visit st →
    u = seed ∨ in_domain u = true.

Lemma domain_inv_initial (seed : string) : domain_inv seed (initial_state seed).
Proof.
  intros u [Hu|Hu]; simpl in Hu; [set_solver|].
  left. by apply list_elem_of_singleton in Hu.
Qed.

Lemma elem_of_extend (x : string) (stack xs : list string) :
  x ∈ extend stack xs ↔ x ∈ xs ∨ x ∈ stack.
Proof. unfold extend. by rewrite elem_of_app, elem_of_reverse. Qed.

Lemma domain_inv_step (seed u : string) (rest : list string) (st : crawl_state) :
  pages_to_visit st = u :: rest →
  domain_inv seed st → domain_inv seed (turn u rest st).
Proof.
  intros E Hinv.
  assert (Hrest : ∀ x, x ∈ rest → x = seed ∨ in_domain x = true).
  { intros x Hx. apply Hinv. right. rewrite E. by right. }
  assert (Hu : u = seed ∨ in_domain u = true).
  { apply Hinv. right. rewrite E. by left. }
  destruct (loop_body_cases u rest st)
    as [[Hv ->]|[(Hv & Hf & ->)|(c & Hv & Hc & Ht & ->)]];
    intros x; simpl.
  - intros [Hx|Hx]; [apply Hinv; by left|by apply Hrest].
  - intros [Hx|Hx]; [apply Hinv; by left|by apply Hrest].
  - rewrite elem_of_union, elem_of_singleton, elem_of_extend, iterate_elem.
    rewrite elem_of_difference, extract_urls_elem.
    intros [[Hx| ->]|[[(_ & _ & Hx) _]|Hx]];
      [apply Hinv; by left|done|by right|by apply Hrest].
Qed.

(** *** Closure under the links that answer *)

(** The seed, if it answers, and every link of a visited page that
    answers and passes the test of [extract_urls], is visited or waits
    on the stack. *)
Definition closed_inv (seed : string) (st : crawl_state) : Prop :=
  (fetch_ok site seed = true →
   seed ∈ visited_urls st ∨ seed ∈ pages_to_visit st)
  ∧ (∀ u v, u ∈ visited_urls st → v ∈ extract_urls (soup_of u) →
       fetch_ok site v = true →
       v ∈ visited_urls st ∨ v ∈ pages_to_visit st).

Lemma closed_inv_initial (seed : string) : closed_inv seed (initial_state seed).
Proof.
  split; simpl.
  - intros _. right. by left.
  - intros u v Hu. set_solver.
Qed.

Lemma closed_inv_step (seed u : string) (rest : list string) (st : crawl_state) :
  pages_to_visit st = u :: rest →
  closed_inv seed st → closed_inv seed (turn u rest st).
Proof.
  intros E [Hseed Hlinks].
  assert (Hpop : ∀ v, fetch_ok site v = true →
            v ∈ visited_urls st ∨ v ∈ pages_to_visit st →
            v ∈ visited_urls (turn u rest st)
            ∨ v ∈ pages_to_visit (turn u rest st)).
  { intros v Hv. rewrite E, elem_of_cons.
    destruct (loop_body_cases u rest st)
      as [[Hu ->]|[(Hu & Hf & ->)|(c & Hu & Hc & Ht & ->)]]; simpl.
    - intros [?|[->|?]]; auto.
    - intros [?|[->|?]]; [auto|congruence|auto].
    - rewrite elem_of_union, elem_of_singleton, elem_of_extend.
      intros [?|[->|?]]; auto. }
  split.
  - intros Hok. apply Hpop; auto.
  - intros x v Hx Hv Hok.
    destruct (loop_body_cases u rest st)
      as [[Hu Hb]|[(Hu & Hf & Hb)|(c & Hu & Hc & Ht & Hb)]].
    + apply Hpop; [done|]. apply (Hlinks x); [|done..].
      by rewrite Hb in Hx.
    + apply Hpop; [done|]. apply (Hlinks x); [|done..].
      by rewrite Hb in Hx.
    + rewrite Hb in Hx. simpl in Hx.
      apply elem_of_union in Hx as [Hx|Hx%elem_of_singleton].
      * apply Hpop; [done|]. by apply (Hlinks x).
      * subst x. rewrite Hb. simpl.
        assert (Hsoup : soup_of u = html_parser c).
        { unfold page_soup, page_content_of.
          by rewrite Hc. }
        rewrite Hsoup in Hv.
        destruct (decide (v ∈ visited_urls st ∪ {[u]})) as [Hin|Hout];
          [by left|right].
        apply elem_of_extend. left. apply iterate_elem. set_solver.
Qed.

(** *** The seed is the first page extracted *)

Definition seed_first_inv (seed : string) (st : crawl_state) : Prop :=
  (extract_log st = [] ∧ (pages_to_visit st = [seed] ∨ pages_to_visit st = []))
  ∨ (∃ l, extract_log st = seed :: l).

Lemma seed_first_inv_step (seed u : string) (rest : list string)
    (st : crawl_state) :
  pages_to_visit st = u :: rest →
  seed_first_inv seed st → seed_first_inv seed (turn u rest st).
Proof.
  intros E Hinv.
  destruct (loop_body_cases u rest st)
    as [[Hu ->]|[(Hu & Hf & ->)|(c & Hu & Hc & Ht & ->)]];
    (destruct Hinv as [[Hlog [Hp|Hp]]|[l Hl]];
       [rewrite E in Hp; injection Hp as -> ->
       |rewrite E in Hp; discriminate Hp
       |]); unfold seed_first_inv; simpl.
  - left. auto.
  - right. eauto.
  - left. auto.
  - right. eauto.
  - right. rewrite Hlog. by exists [].
  - right. rewrite Hl. by exists (l ++ [u]).
Qed.

(** *** All of it, at the end of the loop *)

Record crawl_inv (seed : string) (st : crawl_state) : Prop := CrawlInv {
  crawl_trace : trace_inv st;
  crawl_fetch : fetch_inv st;
  crawl_domain_inv : domain_inv seed st;
  crawl_closed : closed_inv seed st;
  crawl_seed_first : seed_first_inv seed st
}.

Lemma crawl_ends_with_invariant (seed : string) :
  ∃ st, crawl site html_parser it seed = Some st
        ∧ pages_to_visit st = [] ∧ crawl_inv seed st.
Proof.
  destruct (crawl_terminates seed) as [st Hst].
  exists st. split_and!; [done|by eapply scrape_loop_final|].
  eapply (scrape_loop_invariant (crawl_inv seed)); [| |exact Hst].
  - intros u rest st0 E [H1 H2 H3 H4 H5]. split.
    + by apply trace_inv_step.
    + by apply fetch_inv_step.
    + by apply domain_inv_step.
    + by apply closed_inv_step.
    + by apply seed_first_inv_step.
  - split.
    + apply trace_inv_initial.
    + apply fetch_inv_initial.
    + apply domain_inv_initial.
    + apply closed_inv_initial.
    + left. simpl. auto.
Qed.

End crawl_properties.

(** ** Traversal: the claims *)

(** The four aggregates are what the pages of [extract_log] contribute,
    one contribution per entry, in order for the text. *)
Definition aggregated_from_trace (site : gmap string string)
    (html_parser : string → soup) (st : crawl_state) : Prop :=
  all_text st
  = (λ u, get_text (page_soup site html_parser u)) <$> extract_log st
  ∧ all_image_urls st
    = ⋃ ((λ u, extract_image_urls (page_soup site html_parser u))
           <$> extract_log st)
  ∧ all_phone_numbers st
    = ⋃ ((λ u, extract_phone_numbers (page_content_of site u))
           <$> extract_log st)
  ∧ all_zip_codes st
    = ⋃ ((λ u, extract_zip_codes (page_content_of site u))
           <$> extract_log st).

Lemma trace_inv_aggregated site html_parser st :
  trace_inv site html_parser st → aggregated_from_trace site html_parser st.
Proof. intros []. by split_and!. Qed.

Lemma occurrences_NoDup_elem (w : string) (l : list string) :
  NoDup l → w ∈ l → occurrences w l = 1.
Proof.
  intros Hnd Hw. pose proof (occurrences_NoDup w l Hnd).
  destruct (occurrences w l) eqn:E; [|lia].
  exfalso. revert Hw E. clear. induction l as [|x l IH]; [by intros ?%elem_of_nil|].
  rewrite elem_of_cons, occurrences_cons.
  intros [->|Hw]; [by rewrite decide_True|].
  case_decide; [done|by apply IH].
Qed.

(** C1. For every site, parser, iteration order and seed the loop ends,
    and in its final state: no URL occurs twice among the URLs whose
    content was extracted; the visited set is the set of those URLs and
    has as many elements as extractions ran; each of them was fetched
    exactly once; and the accumulated text and the image, phone and zip
    sets are made of one contribution per extracted URL. *)
Theorem extraction_at_most_once (site : gmap string string)
    (html_parser : string → soup) (it : iteration) (url : string) :
  ∃ st, crawl site html_parser it url = Some st
    ∧ NoDup (extract_log st)
    ∧ (∀ u, occurrences u (extract_log st) ≤ 1)
    ∧ visited_urls st = list_to_set (extract_log st)
    ∧ size (visited_urls st) = length (extract_log st)
    ∧ (∀ u, u ∈ visited_urls st → occurrences u (fetch_log st) = 1)
    ∧ aggregated_from_trace site html_parser st.
Proof.
  destruct (crawl_ends_with_invariant site html_parser it url)
    as (st & Hst & _ & [Htrace Hfetch _ _ _]).
  exists st. pose proof (trace_inv_aggregated _ _ _ Htrace) as Hagg.
  destruct Htrace as [Hnd Hvis Hok _ _ _ _].
  split_and!; try done.
  - intros u. by apply occurrences_NoDup.
  - rewrite Hvis. by apply size_list_to_set.
  - intros u Hu. rewrite Hfetch, decide_True; [done..|].
    apply Hok. rewrite Hvis in Hu. by apply elem_of_list_to_set in Hu.
Qed.

(** The visited set at the end is closed under the links that answer. *)
Lemma crawl_visits_links (site : gmap string string)
    (html_parser : string → soup) (it : iteration) (seed : string)
    (st : crawl_state) :
  crawl site html_parser it seed = Some st →
  (fetch_ok site seed = true → seed ∈ visited_urls st)
  ∧ (∀ u v, u ∈ visited_urls st →
       v ∈ extract_urls (page_soup site html_parser u) →
       fetch_ok site v = true → v ∈ visited_urls st).
Proof.
  intros Hst.
  destruct (crawl_ends_with_invariant site html_parser it seed)
    as (st' & Hst' & Hend & [_ _ _ [Hseed Hlinks] _]).
  assert (st' = st) as -> by congruence.
  rewrite Hend in Hseed, Hlinks. split.
  - intros Hok. destruct (Hseed Hok) as [?|?%elem_of_nil]; done.
  - intros u v Hu Hv Hok.
    destruct (Hlinks u v Hu Hv Hok) as [?|?%elem_of_nil]; done.
Qed.

(** C2. Two pages, both answering with content, both at absolute URLs
    of the crawl domain, the first linking to the second and the second
    back to the first: started at the first, the loop ends with an
    empty stack, having extracted the first page and then the second,
    each once, and having fetched each once. *)
Theorem two_page_cycle (html_parser : string → soup) (it : iteration)
    (A B cA cB : string) :
  A ≠ B →
  Py.truthy cA = true → Py.truthy cB = true →
  Py.startswith "http" A = true → in_domain A = true →
  Py.startswith "http" B = true → in_domain B = true →
  B ∈ a_href (html_parser cA) → A ∈ a_href (html_parser cB) →
  ∃ st, crawl {[ A := cA; B := cB ]} html_parser it A = Some st
    ∧ pages_to_visit st = []
    ∧ extract_log st = [A; B]
    ∧ visited_urls st = {[ A; B ]}
    ∧ occurrences A (fetch_log st) = 1
    ∧ occurrences B (fetch_log st) = 1.
Proof.
  intros HAB HcA HcB HhA HdA HhB HdB HlinkB HlinkA.
  set (site := {[ A := cA; B := cB ]} : gmap string string).
  assert (HsA : site !! A = Some cA) by (subst site; by simplify_map_eq).
  assert (HsB : site !! B = Some cB) by (subst site; by simplify_map_eq).
  assert (HokA : fetch_ok site A = true).
  { unfold fetch_ok, fetch_page. by rewrite HsA. }
  assert (HokB : fetch_ok site B = true).
  { unfold fetch_ok, fetch_page. by rewrite HsB. }
  destruct (crawl_ends_with_invariant site html_parser it A)
    as (st & Hst & Hend & [Htrace Hfetch _ _ Hfirst]).
  destruct (crawl_visits_links site html_parser it A st Hst) as [HvA Hlinks].
  specialize (HvA HokA).
  assert (HvB : B ∈ visited_urls st).
  { apply (Hlinks A B HvA); [|done].
    unfold page_soup, page_content_of. rewrite HsA. simpl.
    apply extract_urls_elem. by rewrite HhB. }
  destruct Htrace as [Hnd Hvis Hok _ _ _ _].
  assert (Hsub : ∀ u, u ∈ extract_log st → u = A ∨ u = B).
  { intros u Hu. specialize (Hok u Hu). unfold fetch_ok, fetch_page in Hok.
    destruct (decide (u = A)) as [|HuA]; [by left|].
    destruct (decide (u = B)) as [|HuB]; [by right|].
    subst site. by simplify_map_eq. }
  assert (HlA : A ∈ extract_log st).
  { rewrite Hvis in HvA. by apply elem_of_list_to_set in HvA. }
  assert (HlB : B ∈ extract_log st).
  { rewrite Hvis in HvB. by apply elem_of_list_to_set in HvB. }
  assert (Hlog : extract_log st = [A; B]).
  { destruct Hfirst as [[Hnil _]|[l Hl]].
    { rewrite Hnil in HlA. by apply elem_of_nil in HlA. }
    rewrite Hl in Hnd, HlB, Hsub. apply NoDup_cons in Hnd as [HA Hnd].
    apply elem_of_cons in HlB as [?|HlB]; [congruence|].
    destruct l as [|x l]; [by apply elem_of_nil in HlB|].
    assert (x = B) as ->.
    { destruct (Hsub x) as [->|]; [set_solver| |done].
      exfalso. apply HA. by left. }
    destruct l as [|y l]; [by rewrite Hl|].
    exfalso. apply NoDup_cons in Hnd as [HB _].
    destruct (Hsub y) as [->| ->]; [set_solver| |].
    - apply HA. right. by left.
    - apply HB. by left. }
  exists st. split_and!; [done..| | |].
  - rewrite Hvis, Hlog. set_solver.
  - by rewrite Hfetch, decide_True.
  - by rewrite Hfetch, decide_True.
Qed.

Lemma two_page_cycle_witness :
  ∃ st, crawl site_cycle parser_cycle elements_iteration url_home = Some st
    ∧ pages_to_visit st = []
    ∧ extract_log st = [url_home; url_about]
    ∧ visited_urls st = {[ url_home; url_about ]}
    ∧ occurrences url_home (fetch_log st) = 1
    ∧ occurrences url_about (fetch_log st) = 1.
Proof.
  apply (two_page_cycle parser_cycle elements_iteration
           url_home url_about "home" "about").
  - discriminate.
  - reflexivity.
  - reflexivity.
  - reflexivity.
  - reflexivity.
  - reflexivity.
  - reflexivity.
  - apply (bool_decide_unpack _). vm_compute. exact I.
  - apply (bool_decide_unpack _). vm_compute. exact I.
Defined.

(** A URL that fails to fetch is fetched a second time when it is met
    again: here both pages link to [url_gone], which is fetched twice,
    in either order in which the two links of the first page can be
    put on the stack. *)
Lemma failed_url_fetched_again :
  fetch_page site_dead_link url_gone = None
  ∧ (∃ st, crawl site_dead_link parser_dead_link elements_iteration url_home
           = Some st
       ∧ fetch_log st = [url_home; url_about; url_gone; url_gone]
       ∧ occurrences url_gone (fetch_log st) = 2)
  ∧ (∃ st, crawl site_dead_link parser_dead_link reverse_iteration url_home
           = Some st
       ∧ fetch_log st = [url_home; url_gone; url_about; url_gone]
       ∧ occurrences url_gone (fetch_log st) = 2).
Proof.
  split_and!.
  - vm_compute. reflexivity.
  - eexists. split_and!; [vm_compute; reflexivity|reflexivity|reflexivity].
  - eexists. split_and!; [vm_compute; reflexivity|reflexivity|reflexivity].
Qed.

(** On a site that answers every URL the same way throughout the run, a
    URL whose fetch yields nothing (an error, or an empty text) is not
    in the visited set at the end and is not among the URLs whose
    content was extracted, and the aggregates are made of the
    contributions of the extracted URLs only. *)
Theorem failed_url_contributes_nothing (site : gmap string string)
    (html_parser : string → soup) (it : iteration) (seed u : string) :
  fetch_ok site u = false →
  ∃ st, crawl site html_parser it seed = Some st
    ∧ (u ∉ visited_urls st)
    ∧ (u ∉ extract_log st)
    ∧ (∀ v, v ∈ extract_log st → fetch_ok site v = true)
    ∧ aggregated_from_trace site html_parser st.
Proof.
  intros Hu.
  destruct (crawl_ends_with_invariant site html_parser it seed)
    as (st & Hst & _ & [Htrace _ _ _ _]).
  exists st. pose proof (trace_inv_aggregated _ _ _ Htrace) as Hagg.
  destruct Htrace as [_ Hvis Hok _ _ _ _].
  assert (Hlog : u ∉ extract_log st).
  { intros Hin. apply Hok in Hin. congruence. }
  split_and!; [done| |done..].
  rewrite Hvis. by rewrite elem_of_list_to_set.
Qed.

Lemma failed_url_contributes_nothing_witness :
  fetch_ok site_dead_link url_gone = false
  ∧ ∃ st, crawl site_dead_link parser_dead_link elements_iteration url_home
          = Some st
      ∧ (url_gone ∉ visited_urls st)
      ∧ (url_gone ∉ extract_log st)
      ∧ (∀ v, v ∈ extract_log st → fetch_ok site_dead_link v = true)
      ∧ aggregated_from_trace site_dead_link parser_dead_link st.
Proof.
  split; [reflexivity|].
  apply (failed_url_contributes_nothing site_dead_link parser_dead_link
           elements_iteration url_home url_gone).
  reflexivity.
Defined.

(** The seed answers without error and with an empty body: the fetch
    succeeds, and the seed is not in the visited set, whatever the
    parser and the iteration order. *)
Lemma empty_seed_not_visited :
  fetch_page site_empty_seed base_url = Some EmptyString
  ∧ ∀ html_parser it,
      ∃ st, crawl site_empty_seed html_parser it base_url = Some st
        ∧ fetch_log st = [base_url]
        ∧ visited_urls st = ∅
        ∧ (base_url ∉ visited_urls st).
Proof.
  split; [vm_compute; reflexivity|].
  intros html_parser it.
  exists (log_fetch base_url (set_pages_to_visit [] (initial_state base_url))).
  split_and!; [|reflexivity|reflexivity|simpl; set_solver].
  unfold crawl, crawl_fuel. cbn [scrape_loop initial_state pages_to_visit].
  assert (loop_body site_empty_seed html_parser it base_url []
            (initial_state base_url)
          = log_fetch base_url (set_pages_to_visit [] (initial_state base_url)))
    as -> by (vm_compute; reflexivity).
  by apply scrape_loop_empty.
Qed.

(** Started at a seed that passes the domain test, the loop visits
    URLs that pass it only. *)
Lemma crawl_visited_in_domain (site : gmap string string)
    (html_parser : string → soup) (it : iteration) (seed : string) :
  in_domain seed = true →
  ∃ st, crawl site html_parser it seed = Some st
    ∧ (∀ u, u ∈ visited_urls st → in_domain u = true)
    ∧ (fetch_ok site seed = true → seed ∈ visited_urls st).
Proof.
  intros Hseed.
  destruct (crawl_ends_with_invariant site html_parser it seed)
    as (st & Hst & _ & [_ _ Hdom _ _]).
  exists st. split_and!; [done| |].
  - intros u Hu. destruct (Hdom u) as [->|?]; auto.
  - by apply (crawl_visits_links site html_parser it seed st Hst).
Qed.

(** C5, as the code has it. Started at the configured seed, every URL
    of the final visited set contains the domain string, and the seed is
    in the visited set if its fetch yields a text that is not empty. *)
Theorem visited_in_domain (site : gmap string string)
    (html_parser : string → soup) (it : iteration) :
  ∃ st, crawl site html_parser it base_url = Some st
    ∧ (∀ u, u ∈ visited_urls st → Py.contains "casl.website" u = true)
    ∧ (fetch_ok site base_url = true → base_url ∈ visited_urls st).
Proof. by apply crawl_visited_in_domain. Qed.

Lemma visited_in_domain_witness :
  fetch_ok site_cycle base_url = true
  ∧ ∃ st, crawl site_cycle parser_cycle elements_iteration base_url = Some st
      ∧ base_url ∈ visited_urls st.
Proof.
  split; [reflexivity|].
  destruct (visited_in_domain site_cycle parser_cycle elements_iteration)
    as (st & Hst & _ & Hseed).
  exists st. split; [exact Hst|]. apply Hseed. reflexivity.
Defined.

(** [scrape_site] returns, and the first four fields of its result are
    the aggregates of the loop. *)
Lemma scrape_site_returns stopwords_set word_tokenize pos_tag lemmatize
    (site : gmap string string) (html_parser : string → soup)
    (it lex_it : iteration) (url : string) :
  ∃ r st,
    scrape_site stopwords_set word_tokenize pos_tag lemmatize site
      html_parser it lex_it url = Some r
    ∧ crawl site html_parser it url = Some st
    ∧ unique_urls r = visited_urls st
    ∧ image_urls r = all_image_urls st
    ∧ phone_numbers r = all_phone_numbers st
    ∧ zip_codes r = all_zip_codes st.
Proof.
  destruct (crawl_terminates site html_parser it url) as [st Hst].
  unfold scrape_site. rewrite Hst. simpl. eauto 10.
Qed.

(** * Further properties of the traversal *)

Section reachability.

Variable site : gmap string string.
Variable html_parser : string → soup.

(** The URLs the loop can get to from [seed]: the seed if it answers
    with content, and every link that [extract_urls] takes from a page
    already reached, if that link answers with content. *)
Inductive reachable (seed : string) : string → Prop :=
  | reach_seed :
      fetch_ok site seed = true → reachable seed seed
  | reach_link (u v : string) :
      reachable seed u →
      v ∈ extract_urls (page_soup site html_parser u) →
      fetch_ok site v = true →
      reachable seed v.

Variable it : iteration.

Definition reach_inv (seed : string) (st : crawl_state) : Prop :=
  (∀ u, u ∈ visited_urls st → reachable seed u)
  ∧ (∀ u, u ∈ pages_to_visit st → fetch_ok site u = true → reachable seed u).

Lemma reach_inv_initial (seed : string) : reach_inv seed (initial_state seed).
Proof.
  split; simpl.
  - intros u Hu. set_solver.
  - intros u ->%list_elem_of_singleton Hok. by constructor.
Qed.

Lemma reach_inv_step (seed u : string) (rest : list string) (st : crawl_state) :
  pages_to_visit st = u :: rest →
  reach_inv seed st → reach_inv seed (loop_body site html_parser it u rest st).
Proof.
  intros E [Hvis Hpages].
  assert (Hrest : ∀ x, x ∈ rest → fetch_ok site x = true → reachable seed x).
  { intros x Hx. apply Hpages. rewrite E. by right. }
  destruct (loop_body_cases site html_parser it u rest st)
    as [[Hv ->]|[(Hv & Hf & ->)|(c & Hv & Hc & Ht & ->)]];
    [by split..|].
  assert (Hok : fetch_ok site u = true).
  { unfold fetch_ok, fetch_page. by rewrite Hc. }
  assert (Hu : reachable seed u).
  { apply Hpages; [|done]. rewrite E. by left. }
  assert (Hsoup : page_soup site html_parser u = html_parser c).
  { unfold page_soup, page_content_of. by rewrite Hc. }
  split; simpl.
  - intros x [Hx| ->%elem_of_singleton]%elem_of_union; auto.
  - intros x [Hx|Hx]%elem_of_extend Hokx; [|by apply Hrest].
    apply iterate_elem, elem_of_difference in Hx as [Hx _].
    apply (reach_link seed u x); [done| |done]. by rewrite Hsoup.
Qed.

Lemma crawl_visited_reachable (seed : string) (st : crawl_state) :
  crawl site html_parser it seed = Some st →
  ∀ u, u ∈ visited_urls st ↔ reachable seed u.
Proof.
  intros Hst u. split.
  - revert u.
    apply (scrape_loop_invariant site html_parser it (reach_inv seed))
      with (r := st) (st := initial_state seed) (fuel := crawl_fuel site html_parser);
      [|apply reach_inv_initial|exact Hst].
    intros x rest st0 E Hinv. by apply reach_inv_step.
  - destruct (crawl_visits_links site html_parser it seed st Hst)
      as [Hseed Hlinks].
    induction 1 as [Hok|x v Hx IH Hv Hok]; [by apply Hseed|].
    by apply (Hlinks x v).
Qed.

End reachability.

(** X1. The loop of [scrape_site] ends for every site, parser,
    iteration order and seed, within [crawl_fuel] turns; allowing more
    turns gives the same final state. *)
Theorem crawl_returns_within_fuel (site : gmap string string)
    (html_parser : string → soup) (it : iteration) (url : string) :
  ∃ st, crawl site html_parser it url = Some st
    ∧ pages_to_visit st = []
    ∧ ∀ fuel, crawl_fuel site html_parser ≤ fuel →
        scrape_loop site html_parser it fuel (initial_state url) = Some st.
Proof.
  destruct (crawl_terminates site html_parser it url) as [st Hst].
  exists st. split_and!; [done|by eapply scrape_loop_final|].
  intros fuel Hfuel. by eapply scrape_loop_more_fuel.
Qed.

(** X2. The visited set at the end is exactly the set of URLs
    reachable from the seed: the seed if it answers with content, and
    what can be reached through the links [extract_urls] keeps, as long
    as they answer with content. *)
Theorem visited_is_reachable (site : gmap string string)
    (html_parser : string → soup) (it : iteration) (seed : string) :
  ∃ st, crawl site html_parser it seed = Some st
    ∧ ∀ u, u ∈ visited_urls st ↔ reachable site html_parser seed u.
Proof.
  destruct (crawl_terminates site html_parser it seed) as [st Hst].
  exists st. split; [done|].
  by apply (crawl_visited_reachable site html_parser it).
Qed.

Lemma union_list_fmap_ext (f : string → gset string) (l1 l2 : list string) :
  (∀ x, x ∈ l1 ↔ x ∈ l2) → ⋃ (f <$> l1) = ⋃ (f <$> l2).
Proof.
  intros H. apply set_eq. intros y. rewrite !elem_of_union_list.
  split; intros (X & [x [-> Hx]]%list_elem_of_fmap & Hy);
    exists (f x); (split; [apply list_elem_of_fmap; exists x|done]);
    (split; [done|]); by apply H.
Qed.

(** X3. The visited set and the image, phone and zip sets do not depend
    on the order in which Python iterates over sets: two runs on the
    same site from the same seed, under any two iteration orders, end
    with the same four sets. *)
Theorem crawl_sets_order_independent (site : gmap string string)
    (html_parser : string → soup) (it1 it2 : iteration) (seed : string) :
  ∃ st1 st2,
    crawl site html_parser it1 seed = Some st1
    ∧ crawl site html_parser it2 seed = Some st2
    ∧ visited_urls st1 = visited_urls st2
    ∧ all_image_urls st1 = all_image_urls st2
    ∧ all_phone_numbers st1 = all_phone_numbers st2
    ∧ all_zip_codes st1 = all_zip_codes st2.
Proof.
  destruct (crawl_ends_with_invariant site html_parser it1 seed)
    as (st1 & Hst1 & _ & [[_ Hv1 _ _ Hi1 Hp1 Hz1] _ _ _ _]).
  destruct (crawl_ends_with_invariant site html_parser it2 seed)
    as (st2 & Hst2 & _ & [[_ Hv2 _ _ Hi2 Hp2 Hz2] _ _ _ _]).
  exists st1, st2.
  assert (Hvis : visited_urls st1 = visited_urls st2).
  { apply set_eq. intros u.
    rewrite (crawl_visited_reachable _ _ _ _ _ Hst1 u).
    by rewrite (crawl_visited_reachable _ _ _ _ _ Hst2 u). }
  assert (Hlog : ∀ x, x ∈ extract_log st1 ↔ x ∈ extract_log st2).
  { intros x. rewrite <-!(elem_of_list_to_set (C := gset string)).
    by rewrite <-Hv1, <-Hv2, Hvis. }
  split_and!; [done..| | |].
  - rewrite Hi1, Hi2. by apply union_list_fmap_ext.
  - rewrite Hp1, Hp2. by apply union_list_fmap_ext.
  - rewrite Hz1, Hz2. by apply union_list_fmap_ext.
Qed.

(** The state the loop ends in when nothing could be extracted. *)
Definition fetched_only (url : string) : crawl_state :=
  {| visited_urls := ∅; all_image_urls := ∅; all_phone_numbers := ∅;
     all_zip_codes := ∅; all_text := []; pages_to_visit := [];
     fetch_log := [url]; extract_log := [] |}.

Lemma crawl_failing_seed (site : gmap string string)
    (html_parser : string → soup) (it : iteration) (seed : string) :
  fetch_ok site seed = false →
  crawl site html_parser it seed = Some (fetched_only seed).
Proof.
  intros Hfail. unfold crawl, crawl_fuel.
  cbn [scrape_loop initial_state pages_to_visit].
  destruct (loop_body_cases site html_parser it seed [] (initial_state seed))
    as [[Hv _]|[(_ & _ & ->)|(c & _ & Hc & Ht & _)]].
  - simpl in Hv. set_solver.
  - by apply scrape_loop_empty.
  - unfold fetch_ok, fetch_page in Hfail. rewrite Hc in Hfail. congruence.
Qed.

(** X4. When the seed does not answer with content (the fetch fails, or
    the text is empty), the loop makes that one fetch and stops, and
    [scrape_site] still returns a result: its URL, image, phone and zip
    sets are empty and its vocabulary is that of the empty text. *)
Theorem scrape_site_failing_seed stopwords_set word_tokenize pos_tag lemmatize
    (site : gmap string string) (html_parser : string → soup)
    (it lex_it : iteration) (seed : string) :
  fetch_ok site seed = false →
  crawl site html_parser it seed = Some (fetched_only seed)
  ∧ ∃ r, scrape_site stopwords_set word_tokenize pos_tag lemmatize site
           html_parser it lex_it seed = Some r
      ∧ unique_urls r = ∅ ∧ image_urls r = ∅
      ∧ phone_numbers r = ∅ ∧ zip_codes r = ∅
      ∧ vocabulary r
        = extract_vocabulary stopwords_set word_tokenize EmptyString.
Proof.
  intros Hfail.
  pose proof (crawl_failing_seed site html_parser it seed Hfail) as Hst.
  split; [done|]. unfold scrape_site. rewrite Hst. simpl. eauto 10.
Qed.

Lemma scrape_site_failing_seed_witness :
  fetch_ok ∅ url_home = false
  ∧ crawl ∅ parser_no_links elements_iteration url_home
    = Some (fetched_only url_home).
Proof.
  split; [reflexivity|].
  apply (scrape_site_failing_seed ∅ (λ _, []) (λ _, []) (λ w, w) ∅
           parser_no_links elements_iteration elements_iteration url_home).
  reflexivity.
Defined.

Section request_budget.

Variable site : gmap string string.
Variable html_parser : string → soup.
Variable it : iteration.

(** Fetches made, plus URLs waiting, plus the links of the pages not
    yet visited, stay within one plus the links of the whole site. *)
Definition budget_inv (st : crawl_state) : Prop :=
  ∃ rem : gmap string string,
    (∀ u c, site !! u = Some c → u ∉ visited_urls st → rem !! u = Some c)
    ∧ length (fetch_log st) + length (pages_to_visit st)
      + link_weight html_parser rem
      ≤ 1 + link_weight html_parser site.

Lemma budget_inv_step (u : string) (rest : list string) (st : crawl_state) :
  pages_to_visit st = u :: rest →
  budget_inv st → budget_inv (loop_body site html_parser it u rest st).
Proof.
  intros E (rem & Hrem & Hle). rewrite E in Hle. simpl in Hle.
  destruct (loop_body_cases site html_parser it u rest st)
    as [[Hv ->]|[(Hv & Hf & ->)|(c & Hv & Hc & Ht & ->)]].
  - exists rem. simpl. split; [done|lia].
  - exists rem. simpl. split; [done|]. rewrite length_app. simpl. lia.
  - exists (delete u rem). simpl. split.
    + intros u' c' Hu' Hv'.
      rewrite lookup_delete_ne by set_solver. apply Hrem; set_solver.
    + unfold extend.
      rewrite !length_app, length_reverse, length_iterate. simpl.
      rewrite (link_weight_delete html_parser rem u c) in Hle by (by apply Hrem).
      match goal with |- context [size (?X ∖ ?Y)] =>
        pose proof (subseteq_size (X ∖ Y) X ltac:(set_solver)) end.
      lia.
Qed.

Lemma crawl_budget (seed : string) (st : crawl_state) :
  crawl site html_parser it seed = Some st → budget_inv st.
Proof.
  intros Hst.
  apply (scrape_loop_invariant site html_parser it budget_inv)
    with (r := st) (st := initial_state seed) (fuel := crawl_fuel site html_parser);
    [|exists site; simpl; split; [done|lia]|exact Hst].
  intros x rest st0 E Hinv. by apply budget_inv_step.
Qed.

End request_budget.

(** X5. A run calls [fetch_page] at most once more than the number of
    links [extract_urls] keeps, counted per page over the pages of the
    site, whatever the seed; and it visits no more pages than the site
    has. *)
Theorem fetches_bounded (site : gmap string string)
    (html_parser : string → soup) (it : iteration) (seed : string) :
  ∃ st, crawl site html_parser it seed = Some st
    ∧ length (fetch_log st) ≤ 1 + link_weight html_parser site
    ∧ size (visited_urls st) ≤ size site.
Proof.
  destruct (crawl_ends_with_invariant site html_parser it seed)
    as (st & Hst & _ & [[_ Hvis Hok _ _ _ _] _ _ _ _]).
  exists st. split_and!; [done| |].
  - destruct (crawl_budget site html_parser it seed st Hst) as (rem & _ & Hle).
    lia.
  - rewrite <-size_dom. apply subseteq_size. intros u Hu.
    rewrite Hvis in Hu. apply elem_of_list_to_set, Hok in Hu.
    unfold fetch_ok, fetch_page in Hu. apply elem_of_dom.
    destruct (site !! u); [eauto|done].
Qed.

Lemma startswith_app (p q s : string) :
  Py.startswith (p +:+ q) s = true → Py.startswith p s = true.
Proof.
  revert s. induction p as [|a p IH]; intros s; [done|].
  destruct s as [|b s]; simpl; [done|].
  destruct (Ascii.eqb a b); [apply IH|done].
Qed.

Lemma startswith_https_http (s : string) :
  Py.startswith "https" s = true → Py.startswith "http" s = true.
Proof. apply (startswith_app "http" "s"). Qed.

(** X6. Of the two tests [href.startswith('http') or
    href.startswith('https')] the second never decides: [extract_urls]
    returns exactly the [href] values that start with [http] and contain
    [casl.website] somewhere, be it in the host, the path or the query
    string. *)
Theorem extract_urls_exactly (sp : soup) (v : string) :
  v ∈ extract_urls sp
  ↔ v ∈ a_href sp
    ∧ Py.startswith "http" v = true
    ∧ Py.contains "casl.website" v = true.
Proof.
  rewrite extract_urls_elem. unfold in_domain, crawl_domain.
  split; intros (Hv & Hs & Hd); (split_and!; [done| |done]).
  - apply orb_true_iff in Hs as [Hs|Hs]; [done|].
    by apply startswith_https_http.
  - by rewrite Hs.
Qed.

(** X7. Whatever the seed, every visited URL is the seed itself or an
    absolute URL that contains the domain string; the seed is not
    tested. *)
Theorem visited_seed_or_in_domain (site : gmap string string)
    (html_parser : string → soup) (it : iteration) (seed : string) :
  ∃ st, crawl site html_parser it seed = Some st
    ∧ ∀ u, u ∈ visited_urls st →
        u = seed
        ∨ (Py.startswith "http" u = true
           ∧ Py.contains "casl.website" u = true).
Proof.
  destruct (crawl_terminates site html_parser it seed) as [st Hst].
  exists st. split; [done|]. intros u Hu.
  apply (crawl_visited_reachable site html_parser it seed st Hst) in Hu.
  destruct Hu as [_|x v _ Hv _]; [by left|right].
  apply extract_urls_elem in Hv as (_ & Hs & Hd). split; [|done].
  apply orb_true_iff in Hs as [Hs|Hs]; [done|].
  by apply startswith_https_http.
Qed.

(** X8. [extract_image_urls] returns the resolved [src] of every image
    and nothing else, and none of its results starts with a slash; a
    [src] without a leading slash is returned as it is, whatever its
    host. *)
Theorem extract_image_urls_exactly (sp : soup) (u : string) :
  (u ∈ extract_image_urls sp
   ↔ ∃ src, src ∈ img_src sp ∧ u = resolve_image_url base_url src)
  ∧ (u ∈ extract_image_urls sp → Py.startswith "/" u = false)
  ∧ (u ∈ img_src sp → Py.startswith "/" u = false →
     u ∈ extract_image_urls sp).
Proof.
  unfold extract_image_urls. rewrite extract_image_urls_from_spec.
  rewrite elem_of_list_to_set, list_elem_of_fmap.
  split_and!.
  - split; intros (src & H1 & H2); exists src; done.
  - intros (src & -> & _). unfold resolve_image_url.
    destruct (Py.startswith "/" src) eqn:E; [|done].
    by apply startswith_slash_app.
  - intros Hu Hs. exists u. split; [|done]. by rewrite resolve_absolute.
Qed.

(** * Further properties of the lexical functions *)

(** A Python string all of whose characters are ASCII. On such a string
    [Py.lower], [Py.isnumeric] and the class [\d] of [Re] are what
    [str.lower], [str.isnumeric] and [\d] are in Python; on other
    strings Python also lower-cases letters, and counts digits and
    numerics, outside ASCII. The statements below that speak of the
    filter condition or of digits are made for ASCII strings. *)
Definition ascii_text (s : string) : bool :=
  Py.all_chars (λ c, nat_of_ascii c <? 128) s.

Lemma occurrences_filter_content (stopwords_set : gset string)
    (tokens : list string) (w : string) :
  occurrences w (List.filter (content_word stopwords_set) tokens)
  = if non_content stopwords_set w then 0 else occurrences w tokens.
Proof.
  induction tokens as [|x tokens IH]; simpl.
  - unfold occurrences. simpl. by destruct (non_content _ _).
  - unfold content_word at 1.
    destruct (non_content stopwords_set x) eqn:Ex; simpl;
      rewrite ?occurrences_cons, IH;
      destruct (decide (x = w)) as [->|]; try done;
      by rewrite Ex.
Qed.

(** X9. The output of [filter_non_content_words] is a subsequence of
    its input and no longer than it; an ASCII token occurs in the output
    as many times as in the input if the condition of the loop is false
    for it, and not at all if it is true. *)
Theorem filter_non_content_words_subsequence (stopwords_set : gset string)
    (tokens : list string) (w : string) :
  ascii_text w = true →
  sublist (filter_non_content_words stopwords_set tokens) tokens
  ∧ length (filter_non_content_words stopwords_set tokens) ≤ length tokens
  ∧ occurrences w (filter_non_content_words stopwords_set tokens)
    = if non_content stopwords_set w then 0 else occurrences w tokens.
Proof.
  intros _. split_and!.
  - apply filter_non_content_words_sublist.
  - apply sublist_length, filter_non_content_words_sublist.
  - rewrite filter_non_content_words_spec.
    apply occurrences_filter_content.
Qed.

Lemma filter_non_content_words_subsequence_witness :
  ascii_text "page" = true
  ∧ occurrences "page"
      (filter_non_content_words {[ "the" ]} ["The"; "page"; "="; "page"; "42"])
    = 2.
Proof.
  split; [reflexivity|].
  destruct (filter_non_content_words_subsequence {[ "the" ]}
              ["The"; "page"; "="; "page"; "42"] "page" eq_refl)
    as (_ & _ & ->).
  vm_compute. reflexivity.
Defined.

(** X10. Filtering a concatenation is concatenating the filtered parts,
    so a token is kept or dropped whatever stands around it. *)
Theorem filter_non_content_words_app (stopwords_set : gset string)
    (tokens1 tokens2 : list string) :
  filter_non_content_words stopwords_set (tokens1 ++ tokens2)
  = filter_non_content_words stopwords_set tokens1
    ++ filter_non_content_words stopwords_set tokens2.
Proof. rewrite !filter_non_content_words_spec. apply List.filter_app. Qed.

Lemma non_content_false (stopwords_set : gset string) (w : string) :
  non_content stopwords_set w = false →
  (Py.lower w ∉ stopwords_set)
  ∧ Re.matches dimension_patt w = false
  ∧ Re.matches hash_patt w = false
  ∧ Py.contains w Py.punctuation = false
  ∧ Py.isnumeric w = false
  ∧ Py.startswith "http" w = false
  ∧ Py.startswith "//" w = false
  ∧ Py.contains "=" w = false.
Proof.
  unfold non_content. rewrite !orb_false_iff, bool_decide_eq_false.
  tauto.
Qed.

(** X11. For an ASCII text, an ASCII word of the vocabulary is a token
    of the lower-cased text that is not a stop word, is not empty, is
    not a number, does not start with [http] or with two slashes and
    has no equals sign in it; so [=foo] and [http://x] are never in the
    vocabulary. *)
Theorem vocabulary_words_are_content (stopwords_set : gset string)
    (word_tokenize : string → list string) (text w : string) :
  ascii_text text = true →
  ascii_text w = true →
  w ∈ extract_vocabulary stopwords_set word_tokenize text →
  w ∈ word_tokenize (Py.lower text)
  ∧ (Py.lower w ∉ stopwords_set)
  ∧ w ≠ EmptyString
  ∧ Py.isnumeric w = false
  ∧ Py.startswith "http" w = false
  ∧ Py.startswith "//" w = false
  ∧ Py.contains "=" w = false.
Proof.
  intros _ _. unfold extract_vocabulary. rewrite elem_of_list_to_set.
  intros [Htok Hw]%filter_non_content_words_elem.
  apply non_content_false in Hw as (H1 & _ & _ & H4 & H5 & H6 & H7 & H8).
  split_and!; try done.
  intros ->. discriminate H4.
Qed.

Lemma vocabulary_words_are_content_witness :
  "alpha" ∈ extract_vocabulary {[ "the" ]} String.words "The Alpha =x 42"
  ∧ Py.contains "=" "alpha" = false.
Proof.
  assert (H : "alpha"
              ∈ extract_vocabulary {[ "the" ]} String.words "The Alpha =x 42").
  { apply (bool_decide_unpack _). vm_compute. exact I. }
  split; [exact H|].
  apply (vocabulary_words_are_content {[ "the" ]} String.words
           "The Alpha =x 42" "alpha" eq_refl eq_refl H).
Defined.

Section refine_properties.

Variable stopwords_set : gset string.
Variable lemmatize : string → string.

Lemma startswith_NN_not_VB (tag : string) :
  Py.startswith "NN" tag = true → Py.startswith "VB" tag = false.
Proof.
  destruct tag as [|c tag]; [done|]. cbn [Py.startswith].
  destruct (Ascii.eqb_spec "N" c) as [<-|]; [done|]. intros H. discriminate H.
Qed.

(** What one tagged token adds to the two candidate sets. *)
Lemma tag_step_elem (vs ns : gset string) (word tag w : string) :
  (w ∈ (tag_step stopwords_set lemmatize (vs, ns) (word, tag)).1
   ↔ w ∈ vs
     ∨ (Py.startswith "VB" tag = true
        ∧ lemmatize (Py.lower word) = w ∧ w ∉ stopwords_set))
  ∧ (w ∈ (tag_step stopwords_set lemmatize (vs, ns) (word, tag)).2
     ↔ w ∈ ns
       ∨ (Py.startswith "NN" tag = true
          ∧ lemmatize (Py.lower word) = w ∧ w ∉ stopwords_set)).
Proof.
  unfold tag_step.
  destruct (Py.startswith "NN" tag) eqn:EN.
  - rewrite (startswith_NN_not_VB tag EN). simpl.
    case_bool_decide as ES; simpl; split; try set_solver.
    all: split; [by left|]; intros [?|(? & <- & ?)]; done.
  - destruct (Py.startswith "VB" tag) eqn:EV; simpl;
      [case_bool_decide as ES; simpl|]; split; try set_solver.
    all: split; [by left|]; intros [?|(? & <- & ?)]; done.
Qed.

(** What the loop over the tagged tokens adds to the two candidate
    sets. *)
Lemma tag_loop_elem (pos_tags : list (string * string))
    (acc : gset string * gset string) (w : string) :
  (w ∈ (fold_left (tag_step stopwords_set lemmatize) pos_tags acc).1
   ↔ w ∈ acc.1
     ∨ (∃ word tag, (word, tag) ∈ pos_tags
          ∧ Py.startswith "VB" tag = true
          ∧ lemmatize (Py.lower word) = w ∧ w ∉ stopwords_set))
  ∧ (w ∈ (fold_left (tag_step stopwords_set lemmatize) pos_tags acc).2
     ↔ w ∈ acc.2
       ∨ (∃ word tag, (word, tag) ∈ pos_tags
            ∧ Py.startswith "NN" tag = true
            ∧ lemmatize (Py.lower word) = w ∧ w ∉ stopwords_set)).
Proof.
  revert acc. induction pos_tags as [|[word tag] l IH]; intros [vs ns].
  - simpl. split; (split; [by left|]);
      intros [?|(? & ? & ?%elem_of_nil & _)]; done.
  - cbn [fold_left].
    destruct (IH (tag_step stopwords_set lemmatize (vs, ns) (word, tag)))
      as [IHv IHn].
    destruct (tag_step_elem vs ns word tag w) as [Sv Sn].
    rewrite IHv, IHn, Sv, Sn. clear. simpl.
    split; split.
    + intros [[?|(? & ? & ?)]|(word' & tag' & ? & ?)]; [by left| |].
      * right. exists word, tag. split; [by left|done].
      * right. exists word', tag'. split; [by right|done].
    + intros [?|(word' & tag' & [[= -> ->]|?]%elem_of_cons & ?)].
      * by left; left.
      * by left; right.
      * right. by exists word', tag'.
    + intros [[?|(? & ? & ?)]|(word' & tag' & ? & ?)]; [by left| |].
      * right. exists word, tag. split; [by left|done].
      * right. exists word', tag'. split; [by right|done].
    + intros [?|(word' & tag' & [[= -> ->]|?]%elem_of_cons & ?)].
      * by left; left.
      * by left; right.
      * right. by exists word', tag'.
Qed.

End refine_properties.

(** A tagger for small inputs: a token that starts with [run] is a
    verb, every other token a noun. *)
Definition toy_pos_tag (tokens : list string) : list (string * string) :=
  (λ word, (word, if Py.startswith "run" word then "VB" else "NN")) <$> tokens.

(** X12. When the tagged tokens are ASCII, [refine_verbs_and_nouns]
    returns as verbs exactly the ASCII words that are lemmas of the
    lower-cased tokens whose tag starts with [VB], and as nouns exactly
    those of the tokens whose tag starts with [NN], leaving out the
    lemmas that are stop words and those the lexical filter drops;
    neither list has a repeated word. *)
Theorem refined_words_exactly (stopwords_set : gset string)
    (word_tokenize : string → list string)
    (pos_tag : list string → list (string * string))
    (lemmatize : string → string) (it : iteration) (text w : string) :
  let r := refine_verbs_and_nouns stopwords_set word_tokenize pos_tag
             lemmatize it text in
  (∀ word tag, (word, tag) ∈ pos_tag (word_tokenize text) →
     ascii_text word = true) →
  ascii_text w = true →
  (w ∈ refined_verbs r
   ↔ (∃ word tag, (word, tag) ∈ pos_tag (word_tokenize text)
        ∧ Py.startswith "VB" tag = true
        ∧ lemmatize (Py.lower word) = w ∧ w ∉ stopwords_set)
     ∧ non_content stopwords_set w = false)
  ∧ (w ∈ refined_nouns r
     ↔ (∃ word tag, (word, tag) ∈ pos_tag (word_tokenize text)
          ∧ Py.startswith "NN" tag = true
          ∧ lemmatize (Py.lower word) = w ∧ w ∉ stopwords_set)
       ∧ non_content stopwords_set w = false)
  ∧ NoDup (refined_verbs r) ∧ NoDup (refined_nouns r).
Proof.
  intros r _ _.
  destruct (refined_lists_NoDup stopwords_set word_tokenize pos_tag
              lemmatize it text) as [Hv Hn].
  fold r in Hv, Hn. split_and!; [| |done..].
  - subst r. unfold refine_verbs_and_nouns.
    pose proof (tag_loop_elem stopwords_set lemmatize
                  (pos_tag (word_tokenize text)) (∅, ∅) w) as [Hloop _].
    destruct (fold_left _ _ _) as [vs ns]. simpl in *.
    rewrite filter_non_content_words_elem, iterate_elem, Hloop.
    set_solver.
  - subst r. unfold refine_verbs_and_nouns.
    pose proof (tag_loop_elem stopwords_set lemmatize
                  (pos_tag (word_tokenize text)) (∅, ∅) w) as [_ Hloop].
    destruct (fold_left _ _ _) as [vs ns]. simpl in *.
    rewrite filter_non_content_words_elem, iterate_elem, Hloop.
    set_solver.
Qed.

Lemma refined_words_exactly_witness :
  NoDup (refined_nouns
           (refine_verbs_and_nouns {[ "the" ]} String.words toy_pos_tag
              (λ w, w) elements_iteration "the Dogs run dogs")).
Proof.
  apply (refined_words_exactly {[ "the" ]} String.words toy_pos_tag
           (λ w, w) elements_iteration "the Dogs run dogs" "dogs").
  - intros word tag Hin.
    assert (word ∈ ["the"; "Dogs"; "run"; "dogs"]) as Hw.
    { apply list_elem_of_fmap in Hin as (x & [= -> _] & Hx). exact Hx. }
    repeat (apply elem_of_cons in Hw as [->|Hw]; [reflexivity|]).
    by apply elem_of_nil in Hw.
  - reflexivity.
Defined.

Lemma occurrences_elem (w : string) (l : list string) :
  w ∈ l → 0 < occurrences w l.
Proof.
  induction l as [|x l IH]; [by intros ?%elem_of_nil|].
  rewrite elem_of_cons, occurrences_cons.
  intros [->|Hw]; [rewrite decide_True by done; lia|].
  case_decide; [lia|by apply IH].
Qed.

Lemma Counter_dom (l : list string) : dom (Counter l) = list_to_set l.
Proof.
  apply set_eq. intros w.
  rewrite elem_of_dom, elem_of_list_to_set, Counter_lookup.
  destruct (decide (w ∈ l)) as [Hw|Hw].
  - pose proof (occurrences_elem w l Hw).
    destruct (occurrences w l); [lia|]. split; [done|eauto].
  - rewrite (occurrences_not_elem w l Hw). split; [by intros [? ?]|done].
Qed.

(** X13. The keys of the verb frequencies are exactly the returned
    verbs and the keys of the noun frequencies exactly the returned
    nouns: looking a word up gives 1 if it is in the list and no entry
    otherwise. *)
Theorem frequency_lookup (stopwords_set : gset string)
    (word_tokenize : string → list string)
    (pos_tag : list string → list (string * string))
    (lemmatize : string → string) (it : iteration) (text w : string) :
  let r := refine_verbs_and_nouns stopwords_set word_tokenize pos_tag
             lemmatize it text in
  dom (verb_freq r) = list_to_set (refined_verbs r)
  ∧ dom (noun_freq r) = list_to_set (refined_nouns r)
  ∧ verb_freq r !! w
    = (if decide (w ∈ refined_verbs r) then Some 1 else None)
  ∧ noun_freq r !! w
    = (if decide (w ∈ refined_nouns r) then Some 1 else None).
Proof.
  intros r.
  destruct (refined_lists_NoDup stopwords_set word_tokenize pos_tag
              lemmatize it text) as [Hv Hn].
  fold r in Hv, Hn.
  assert (verb_freq r = Counter (refined_verbs r)
          ∧ noun_freq r = Counter (refined_nouns r)) as [-> ->].
  { subst r. unfold refine_verbs_and_nouns.
    by destruct (fold_left _ _ _) as [vs ns]. }
  assert (Hone : ∀ l, NoDup l →
            Counter l !! w = if decide (w ∈ l) then Some 1 else None).
  { intros l Hl. rewrite Counter_lookup. case_decide as Hw.
    - by rewrite (occurrences_NoDup_elem w l Hl Hw).
    - by rewrite (occurrences_not_elem w l Hw). }
  split_and!; [apply Counter_dom..|by apply Hone|by apply Hone].
Qed.

(** * The matcher and the shape of what it finds *)

(** The words a pattern describes. *)
Inductive re_lang : Re.regex → string → Prop :=
  | lang_eps : re_lang Re.Eps EmptyString
  | lang_chr (c : ascii) : re_lang (Re.Chr c) (String c EmptyString)
  | lang_cls (p : ascii → bool) (c : ascii) :
      p c = true → re_lang (Re.Cls p) (String c EmptyString)
  | lang_cat (r1 r2 : Re.regex) (w1 w2 : string) :
      re_lang r1 w1 → re_lang r2 w2 → re_lang (Re.Cat r1 r2) (w1 +:+ w2)
  | lang_alt_l (r1 r2 : Re.regex) (w : string) :
      re_lang r1 w → re_lang (Re.Alt r1 r2) w
  | lang_alt_r (r1 r2 : Re.regex) (w : string) :
      re_lang r2 w → re_lang (Re.Alt r1 r2) w
  | lang_opt_none (r : Re.regex) : re_lang (Re.Opt r) EmptyString
  | lang_opt_some (r : Re.regex) (w : string) :
      re_lang r w → re_lang (Re.Opt r) w
  | lang_rep (p : ascii → bool) (lo : nat) (hi : option nat) (w : string) :
      Py.all_chars p w = true →
      lo ≤ String.length w →
      (∀ h, hi = Some h → String.length w ≤ h) →
      re_lang (Re.Rep p lo hi) w.

Lemma string_app_cons (c : ascii) (a b : string) :
  String c a +:+ b = String c (a +:+ b).
Proof. reflexivity. Qed.

Lemma string_app_nil_r (s : string) : s +:+ EmptyString = s.
Proof. induction s as [|c s IH]; [done|]. by rewrite string_app_cons, IH. Qed.

Lemma string_app_assoc (a b c : string) : (a +:+ b) +:+ c = a +:+ b +:+ c.
Proof. induction a as [|x a IH]; [done|]. by rewrite !string_app_cons, IH. Qed.

Lemma string_length_app (a b : string) :
  String.length (a +:+ b) = String.length a + String.length b.
Proof.
  induction a as [|x a IH]; [done|].
  rewrite string_app_cons. simpl. by rewrite IH.
Qed.

Lemma startswith_app_self (w s : string) : Py.startswith w (w +:+ s) = true.
Proof.
  induction w as [|c w IH]; [done|].
  rewrite string_app_cons. simpl. by rewrite Ascii.eqb_refl.
Qed.

Lemma contains_app_self (w s : string) : Py.contains w (w +:+ s) = true.
Proof.
  pose proof (startswith_app_self w s) as H.
  destruct (w +:+ s); cbn [Py.contains]; by rewrite H.
Qed.

Lemma contains_cons (w : string) (c : ascii) (s : string) :
  Py.contains w s = true → Py.contains w (String c s) = true.
Proof. intros H. cbn [Py.contains]. rewrite H. apply orb_true_r. Qed.

Lemma contains_app_r (w a s : string) :
  Py.contains w s = true → Py.contains w (a +:+ s) = true.
Proof.
  intros H. induction a as [|c a IH]; [done|].
  rewrite string_app_cons. by apply contains_cons.
Qed.

Lemma substring_app_self (w s : string) :
  String.substring 0 (String.length w) (w +:+ s) = w.
Proof.
  induction w as [|c w IH]; [by destruct s|].
  rewrite string_app_cons. simpl. by rewrite IH.
Qed.

Lemma rep_sound (p : ascii → bool) (s : string) :
  ∀ lo hi k rest,
    Re.rep p lo hi s k = Some rest →
    ∃ w s', s = w +:+ s' ∧ re_lang (Re.Rep p lo hi) w ∧ k s' = Some rest.
Proof.
  assert (Hstop : ∀ lo hi (s0 : string) (k : string → option string) rest,
            match lo with 0 => k s0 | S _ => None end = Some rest →
            ∃ w s', s0 = w +:+ s' ∧ re_lang (Re.Rep p lo hi) w
                    ∧ k s' = Some rest).
  { intros lo hi s0 k rest H. destruct lo; [|done].
    exists EmptyString, s0. split_and!; [done| |done].
    constructor; simpl; [done|lia|intros; lia]. }
  induction s as [|c s IH]; intros lo hi k rest; cbn [Re.rep].
  - apply Hstop.
  - destruct (p c && Re.may_take hi) eqn:E; [|apply Hstop].
    apply andb_true_iff in E as [Hc Hhi].
    destruct (Re.rep p (Nat.pred lo) (Re.dec_bound hi) s k) as [r|] eqn:Er;
      [|apply Hstop].
    intros [= ->].
    destruct (IH _ _ _ _ Er) as (w & s' & -> & Hw & Hk).
    exists (String c w), s'. split_and!; [done| |done].
    inversion Hw as [| | | | | | | |? ? ? ? Hall Hlo Hup]; subst.
    constructor; simpl.
    + by rewrite Hc, Hall.
    + lia.
    + intros h ->. simpl in Hhi, Hup. destruct h; [done|].
      specialize (Hup h eq_refl). simpl in Hup. lia.
Qed.

(** What the matcher accepts at the start of [s] is a word of the
    pattern, and the continuation ran on what follows it. *)
Lemma run_sound (r : Re.regex) :
  ∀ s k rest,
    Re.run r s k = Some rest →
    ∃ w s', s = w +:+ s' ∧ re_lang r w ∧ k s' = Some rest.
Proof.
  induction r as [|c|p|r1 IH1 r2 IH2|r1 IH1 r2 IH2|r1 IH1|p lo hi];
    intros s k rest; cbn [Re.run].
  - intros H. exists EmptyString, s. split_and!; [done|constructor|done].
  - destruct s as [|c' s]; [done|].
    destruct (Ascii.eqb_spec c c') as [<-|]; [|done].
    intros H. exists (String c EmptyString), s.
    split_and!; [done|constructor|done].
  - destruct s as [|c' s]; [done|].
    destruct (p c') eqn:E; [|done].
    intros H. exists (String c' EmptyString), s.
    split_and!; [done|by constructor|done].
  - intros H. apply IH1 in H as (w1 & s1 & -> & Hw1 & H).
    apply IH2 in H as (w2 & s2 & -> & Hw2 & H).
    exists (w1 +:+ w2), s2. split_and!; [|by constructor|done].
    by rewrite string_app_assoc.
  - destruct (Re.run r1 s k) as [x|] eqn:E1.
    + intros [= ->]. apply IH1 in E1 as (w & s' & -> & Hw & H).
      exists w, s'. split_and!; [done|by apply lang_alt_l|done].
    + intros H. apply IH2 in H as (w & s' & -> & Hw & H).
      exists w, s'. split_and!; [done|by apply lang_alt_r|done].
  - destruct (Re.run r1 s k) as [x|] eqn:E1.
    + intros [= ->]. apply IH1 in E1 as (w & s' & -> & Hw & H).
      exists w, s'. split_and!; [done|by apply lang_opt_some|done].
    + intros H. exists EmptyString, s.
      split_and!; [done|apply lang_opt_none|done].
  - apply rep_sound.
Qed.

Lemma match_len_sound (r : Re.regex) (s : string) (n : nat) :
  Re.match_len r s = Some n →
  ∃ w s', s = w +:+ s' ∧ re_lang r w ∧ n = String.length w.
Proof.
  unfold Re.match_len. destruct (Re.run r s Some) as [rest|] eqn:E; [|done].
  intros [= <-]. apply run_sound in E as (w & s' & -> & Hw & [= ->]).
  exists w, rest. split_and!; [done..|].
  rewrite string_length_app. lia.
Qed.

Lemma match_len_nonempty_sound (r : Re.regex) (s : string) (n : nat) :
  Re.match_len_nonempty r s = Some n →
  ∃ w s', s = w +:+ s' ∧ re_lang r w ∧ n = String.length w.
Proof.
  unfold Re.match_len_nonempty.
  destruct (Re.run r s _) as [rest|] eqn:E; [|done].
  intros [= <-]. apply run_sound in E as (w & s' & -> & Hw & Hk).
  destruct (String.length s' =? String.length (w +:+ s')); [done|].
  injection Hk as ->.
  exists w, rest. split_and!; [done..|].
  rewrite string_length_app. lia.
Qed.

Lemma findall_from_sound (r : Re.regex) (s : string) :
  ∀ skip m, m ∈ Re.findall_from r s skip →
    re_lang r m ∧ Py.contains m s = true.
Proof.
  induction s as [|c s IH]; intros skip m; cbn [Re.findall_from].
  - destruct skip; [|by intros ?%elem_of_nil].
    destruct (Re.match_len r EmptyString) as [n|] eqn:E;
      [|by intros ?%elem_of_nil].
    intros ->%list_elem_of_singleton.
    apply match_len_sound in E as (w & s' & Hs & Hw & _).
    destruct w; [done|discriminate Hs].
  - assert (Hrest : ∀ skip', m ∈ Re.findall_from r s skip' →
              re_lang r m ∧ Py.contains m (String c s) = true).
    { intros skip' Hm. apply IH in Hm as [? ?].
      split; [done|by apply contains_cons]. }
    assert (Hhead : ∀ n, Re.match_len r (String c s) = Some n →
              re_lang r (String.substring 0 n (String c s))
              ∧ Py.contains (String.substring 0 n (String c s)) (String c s)
                = true).
    { intros n (w & s' & Hs & Hw & ->)%match_len_sound. rewrite Hs.
      rewrite substring_app_self. split; [done|apply contains_app_self]. }
    destruct skip as [|skip]; [|apply Hrest].
    destruct (Re.match_len r (String c s)) as [[|n]|] eqn:E.
    + intros [->|Hm]%elem_of_cons; [apply (Hhead 0 eq_refl)|].
      destruct (Re.match_len_nonempty r (String c s)) as [n|] eqn:E';
        [|by apply Hrest in Hm].
      apply elem_of_cons in Hm as [->|Hm]; [|by apply Hrest in Hm].
      apply match_len_nonempty_sound in E' as (w & s' & Hs & Hw & ->).
      rewrite Hs, substring_app_self.
      split; [done|apply contains_app_self].
    + intros [->|Hm]%elem_of_cons; [apply (Hhead (S n) eq_refl)|].
      by apply Hrest in Hm.
    + apply Hrest.
Qed.

(** X14. Every string [findall] returns is a word of the pattern and
    occurs in the text. *)
Theorem findall_sound (r : Re.regex) (text m : string) :
  m ∈ Re.findall r text → re_lang r m ∧ Py.contains m text = true.
Proof. apply findall_from_sound. Qed.

Lemma findall_sound_witness :
  "30301-1234" ∈ Re.findall zipPatt sample_text
  ∧ re_lang zipPatt "30301-1234"
  ∧ Py.contains "30301-1234" sample_text = true.
Proof.
  assert (H : "30301-1234" ∈ Re.findall zipPatt sample_text).
  { apply (bool_decide_unpack _). vm_compute. exact I. }
  split; [exact H|]. apply (findall_sound zipPatt sample_text _ H).
Defined.

Lemma lang_cat_inv (r1 r2 : Re.regex) (w : string) :
  re_lang (Re.Cat r1 r2) w →
  ∃ w1 w2, w = w1 +:+ w2 ∧ re_lang r1 w1 ∧ re_lang r2 w2.
Proof. inversion 1; subst. eauto. Qed.

Lemma lang_opt_inv (r : Re.regex) (w : string) :
  re_lang (Re.Opt r) w → w = EmptyString ∨ re_lang r w.
Proof. inversion 1; subst; auto. Qed.

Lemma lang_chr_inv (c : ascii) (w : string) :
  re_lang (Re.Chr c) w → w = String c EmptyString.
Proof. by inversion 1. Qed.

Lemma lang_rep_inv (p : ascii → bool) (lo : nat) (hi : option nat) (w : string) :
  re_lang (Re.Rep p lo hi) w →
  Py.all_chars p w = true ∧ lo ≤ String.length w
  ∧ ∀ h, hi = Some h → String.length w ≤ h.
Proof. inversion 1; subst. auto. Qed.

(** Five digits, or five digits, a hyphen and four digits. *)
Definition zip_shaped (z : string) : Prop :=
  ∃ a, Py.all_chars Py.is_digit a = true ∧ String.length a = 5
    ∧ (z = a
       ∨ ∃ b, Py.all_chars Py.is_digit b = true ∧ String.length b = 4
           ∧ z = a +:+ "-" +:+ b).

Lemma zipPatt_shape (z : string) : re_lang zipPatt z → zip_shaped z.
Proof.
  unfold zipPatt, Re.exactly, Re.digit.
  intros (a & t & -> & Ha & Ht)%lang_cat_inv.
  apply lang_rep_inv in Ha as (Ha & Hlo & Hhi). specialize (Hhi 5 eq_refl).
  exists a. split_and!; [done|lia|].
  apply lang_opt_inv in Ht as [->|Ht]; [left; apply string_app_nil_r|right].
  apply lang_cat_inv in Ht as (h & b & -> & ->%lang_chr_inv & Hb).
  apply lang_rep_inv in Hb as (Hb & Hlo' & Hhi'). specialize (Hhi' 4 eq_refl).
  exists b. split_and!; [done|lia|done].
Qed.

(** X15. For an ASCII text, every zip code [extract_zip_codes] returns
    occurs in the text and is five digits, or five digits, a hyphen and
    four digits. *)
Theorem zip_codes_shaped (text z : string) :
  ascii_text text = true →
  z ∈ extract_zip_codes text →
  zip_shaped z ∧ Py.contains z text = true.
Proof.
  intros _. unfold extract_zip_codes. rewrite elem_of_list_to_set.
  intros [Hz Hin]%findall_from_sound. split; [|done].
  by apply zipPatt_shape.
Qed.

Lemma zip_codes_shaped_witness :
  "30301-1234" ∈ extract_zip_codes sample_text
  ∧ zip_shaped "30301-1234".
Proof.
  assert (H : "30301-1234" ∈ extract_zip_codes sample_text).
  { apply (bool_decide_unpack _). vm_compute. exact I. }
  split; [exact H|]. apply (zip_codes_shaped sample_text _ eq_refl H).
Defined.

Lemma phonePatt_shape (w : string) :
  re_lang phonePatt w →
  Py.contains " " w = true ∧ 11 ≤ String.length w.
Proof.
  unfold phonePatt, Re.exactly, Re.star, Re.digit.
  intros (w1 & t1 & -> & _ & H)%lang_cat_inv.
  apply lang_cat_inv in H as (w2 & t2 & -> & H2 & H).
  apply lang_cat_inv in H as (w3 & t3 & -> & _ & H).
  apply lang_cat_inv in H as (w4 & t4 & -> & ->%lang_chr_inv & H).
  apply lang_cat_inv in H as (w5 & t5 & -> & _ & H).
  apply lang_cat_inv in H as (w6 & t6 & -> & H6 & H).
  apply lang_cat_inv in H as (w7 & t7 & -> & _ & H).
  apply lang_cat_inv in H as (w8 & t8 & -> & _ & H).
  apply lang_cat_inv in H as (w9 & w10 & -> & _ & H10).
  apply lang_rep_inv in H2 as (_ & H2 & _).
  apply lang_rep_inv in H6 as (_ & H6 & _).
  apply lang_rep_inv in H10 as (_ & H10 & _).
  split.
  - do 3 apply contains_app_r. apply (contains_app_self " ").
  - rewrite !string_length_app. simpl. lia.
Qed.

(** X16. Every phone number [extract_phone_numbers] returns occurs in
    the text, has a space in it and is at least eleven characters long:
    a number written with hyphens only is never returned. *)
Theorem phone_numbers_have_space (text p : string) :
  p ∈ extract_phone_numbers text →
  Py.contains " " p = true ∧ 11 ≤ String.length p
  ∧ Py.contains p text = true.
Proof.
  unfold extract_phone_numbers. rewrite elem_of_list_to_set.
  intros [Hp Hin]%findall_from_sound.
  destruct (phonePatt_shape p Hp). done.
Qed.

Lemma phone_numbers_have_space_witness :
  "(555) 123-4567" ∈ extract_phone_numbers sample_text
  ∧ Py.contains " " "(555) 123-4567" = true.
Proof.
  assert (H : "(555) 123-4567" ∈ extract_phone_numbers sample_text).
  { apply (bool_decide_unpack _). vm_compute. exact I. }
  split; [exact H|]. apply (phone_numbers_have_space sample_text _ H).
Defined.

(** * The report (lines 154 to 212)

    [generate_report] prints the report and writes it to [report.txt].
    Both texts are modelled as strings: [print(x)] adds [x] and a
    newline to the console text, [report_file.write(x)] adds [x] to the
    file text. The five sets of the result are iterated on occasions 0
    to 4 for the console and 5 to 9 for the file; the verbs and nouns
    are lists. *)

Definition print (line : string) : string := line +:+ newline.

(** [for e in l: print(e)] *)
Fixpoint print_each (l : list string) : string :=
  match l with
  | [] => EmptyString
  | e :: l' => print e +:+ print_each l'
  end.

(** [for e in l: report_file.write(e + "\n")] *)
Fixpoint write_each (l : list string) : string :=
  match l with
  | [] => EmptyString
  | e :: l' => (e +:+ newline) +:+ write_each l'
  end.

Definition report_console (it : iteration) (results : crawl_result) : string :=
  print "Report:" +:+
  print (newline +:+ "Unique URLs:") +:+
  print_each (iterate it 0 (unique_urls results)) +:+
  print (newline +:+ "Image URLs:") +:+
  print_each (iterate it 1 (image_urls results)) +:+
  print (newline +:+ "Phone Numbers:") +:+
  print_each (iterate it 2 (phone_numbers results)) +:+
  print (newline +:+ "Zip Codes:") +:+
  print_each (iterate it 3 (zip_codes results)) +:+
  print (newline +:+ "Vocabulary (Unique words):") +:+
  print_each (iterate it 4 (vocabulary results)) +:+
  print (newline +:+ "Verbs:") +:+
  print_each (verbs results) +:+
  print (newline +:+ "Nouns:") +:+
  print_each (nouns results).

Definition report_file (it : iteration) (results : crawl_result) : string :=
  ("Report:" +:+ newline) +:+
  (newline +:+ "Unique URLs:" +:+ newline) +:+
  write_each (iterate it 5 (unique_urls results)) +:+
  (newline +:+ "Image URLs:" +:+ newline) +:+
  write_each (iterate it 6 (image_urls results)) +:+
  (newline +:+ "Phone Numbers:" +:+ newline) +:+
  write_each (iterate it 7 (phone_numbers results)) +:+
  (newline +:+ "Zip Codes:" +:+ newline) +:+
  write_each (iterate it 8 (zip_codes results)) +:+
  (newline +:+ "Vocabulary (Unique words):" +:+ newline) +:+
  write_each (iterate it 9 (vocabulary results)) +:+
  (newline +:+ "Verbs:" +:+ newline) +:+
  write_each (verbs results) +:+
  (newline +:+ "Nouns:" +:+ newline) +:+
  write_each (nouns results).

(** The console text and the content of [report.txt]. *)
Definition generate_report (it : iteration) (results : crawl_result)
    : string * string :=
  (report_console it results, report_file it results).

Lemma print_each_write_each (l : list string) : print_each l = write_each l.
Proof. induction l as [|e l IH]; [done|]. simpl. by rewrite IH. Qed.

Lemma startswith_app_l (w a b : string) :
  Py.startswith w a = true → Py.startswith w (a +:+ b) = true.
Proof.
  revert a. induction w as [|c w IH]; intros a; [done|].
  destruct a as [|d a]; [done|]. rewrite string_app_cons. simpl.
  destruct (Ascii.eqb c d); [apply IH|done].
Qed.

Lemma contains_app_l (w a b : string) :
  Py.contains w a = true → Py.contains w (a +:+ b) = true.
Proof.
  induction a as [|c a IH].
  - destruct w; [|done]. intros _. by destruct b.
  - intros H. cbn [Py.contains] in H. apply orb_true_iff in H as [H|H].
    + pose proof (startswith_app_l w (String c a) b H) as H'.
      rewrite string_app_cons in *. cbn [Py.contains]. by rewrite H'.
    + rewrite string_app_cons. apply contains_cons. by apply IH.
Qed.

Lemma contains_write_each (e : string) (l : list string) :
  e ∈ l → Py.contains (e +:+ newline) (write_each l) = true.
Proof.
  induction l as [|x l IH]; [by intros ?%elem_of_nil|].
  intros [->|He]%elem_of_cons; simpl.
  - apply contains_app_self.
  - apply contains_app_r. by apply IH.
Qed.

(** X17. Every entry of the result (a visited URL, an image URL, a
    phone number, a zip code, a word of the vocabulary, a verb, a noun)
    is in the text written to [report.txt] and in the text printed,
    followed by a newline. *)
Theorem report_lists_every_entry (it : iteration) (results : crawl_result)
    (e : string) :
  e ∈ unique_urls results ∨ e ∈ image_urls results
  ∨ e ∈ phone_numbers results ∨ e ∈ zip_codes results
  ∨ e ∈ vocabulary results ∨ e ∈ verbs results ∨ e ∈ nouns results →
  Py.contains (e +:+ newline) (generate_report it results).1 = true
  ∧ Py.contains (e +:+ newline) (generate_report it results).2 = true.
Proof.
  intros He. unfold generate_report, report_console, report_file.
  cbn [fst snd]. rewrite !print_each_write_each.
  destruct He as [He|[He|[He|[He|[He|[He|He]]]]]].
  - pose proof (proj2 (iterate_elem it 0 _ e) He) as Hc.
    pose proof (proj2 (iterate_elem it 5 _ e) He) as Hf.
    split; do 2 apply contains_app_r;
      apply contains_app_l, contains_write_each; assumption.
  - pose proof (proj2 (iterate_elem it 1 _ e) He) as Hc.
    pose proof (proj2 (iterate_elem it 6 _ e) He) as Hf.
    split; do 4 apply contains_app_r;
      apply contains_app_l, contains_write_each; assumption.
  - pose proof (proj2 (iterate_elem it 2 _ e) He) as Hc.
    pose proof (proj2 (iterate_elem it 7 _ e) He) as Hf.
    split; do 6 apply contains_app_r;
      apply contains_app_l, contains_write_each; assumption.
  - pose proof (proj2 (iterate_elem it 3 _ e) He) as Hc.
    pose proof (proj2 (iterate_elem it 8 _ e) He) as Hf.
    split; do 8 apply contains_app_r;
      apply contains_app_l, contains_write_each; assumption.
  - pose proof (proj2 (iterate_elem it 4 _ e) He) as Hc.
    pose proof (proj2 (iterate_elem it 9 _ e) He) as Hf.
    split; do 10 apply contains_app_r;
      apply contains_app_l, contains_write_each; assumption.
  - split; do 12 apply contains_app_r;
      apply contains_app_l, contains_write_each; assumption.
  - split; do 14 apply contains_app_r;
      apply contains_write_each; assumption.
Qed.

(** A small result to run the report on. *)
Definition sample_result : crawl_result :=
  {| unique_urls := {[ url_home; url_about ]};
     image_urls := {[ "https://casl.website/logo.png" ]};
     phone_numbers := {[ "(555) 123-4567" ]};
     zip_codes := {[ "30301-1234" ]};
     vocabulary := {[ "home"; "page" ]};
     verbs := [ "call" ];
     nouns := [ "home"; "page" ];
     result_verb_freq := {[ "call" := 1 ]};
     result_noun_freq := {[ "home" := 1; "page" := 1 ]} |}.

(** X18. When each of the five sets is iterated in the same order for
    the file as for the console (the sets are not changed in between),
    the content of [report.txt] is the text printed, character for
    character. *)
Theorem report_file_is_console (it : iteration) (results : crawl_result) :
  (∀ k X, k < 5 → iterate it (k + 5) X = iterate it k X) →
  (generate_report it results).2 = (generate_report it results).1.
Proof.
  intros Hsame. unfold generate_report, report_console, report_file.
  cbn [fst snd].
  pose proof (λ X, Hsame 0 X ltac:(lia)) as H0.
  pose proof (λ X, Hsame 1 X ltac:(lia)) as H1.
  pose proof (λ X, Hsame 2 X ltac:(lia)) as H2.
  pose proof (λ X, Hsame 3 X ltac:(lia)) as H3.
  pose proof (λ X, Hsame 4 X ltac:(lia)) as H4.
  cbn [Nat.add] in H0, H1, H2, H3, H4.
  rewrite H0, H1, H2, H3, H4, <-!print_each_write_each.
  reflexivity.
Qed.

Lemma report_file_is_console_witness :
  (generate_report elements_iteration sample_result).2
  = (generate_report elements_iteration sample_result).1.
Proof.
  apply (report_file_is_console elements_iteration sample_result).
  intros k X Hk. reflexivity.
Defined.

Lemma report_lists_every_entry_witness :
  url_about ∈ unique_urls sample_result
  ∧ Py.contains (url_about +:+ newline)
      (generate_report elements_iteration sample_result).2 = true.
Proof.
  assert (H : url_about ∈ unique_urls sample_result).
  { apply (bool_decide_unpack _). vm_compute. exact I. }
  split; [exact H|].
  apply (report_lists_every_entry elements_iteration sample_result url_about).
  left. exact H.
Defined.

(** * The loop against a network that changes

    [fetch_page] calls [requests.get] each time a URL is popped, and
    the answer to a URL can differ from one call to the next. Here the
    fetcher is given per call: [fetcher k url] is what the call number
    [k] of the run (counted from 0) returns for [url]. The parser can
    fail: [None] stands for an exception of [BeautifulSoup], which
    nothing in [scrape_site] catches, so it ends the run. *)

(** The state of the run: the variables of the loop, the response text
    of each entry of [extract_log] (not in the program), and the URL
    whose parse raised, if the run was ended by one. *)
Record live_state : Type := LiveState {
  live_crawl : crawl_state;
  content_log : list string;
  raised : option string
}.

Definition live_initial (url : string) : live_state :=
  {| live_crawl := initial_state url; content_log := []; raised := None |}.

Section live.

Variable fetcher : nat → string → option string.
Variable parser : string → option soup.
Variable it : iteration.

(** The call number [k] for [url] leads to the body of
    [if page_content:] being run to its end: the fetch returns a text,
    the text is not empty, and the parser accepts it. *)
Definition attempt_ok (k : nat) (url : string) : bool :=
  match fetcher k url with
  | Some page_content =>
      Py.truthy page_content && bool_decide (is_Some (parser page_content))
  | None => false
  end.

(** Lines 115 to 135 for a stack with [current_url] on top of [rest]. *)
Definition live_body (current_url : string) (rest : list string)
    (st : live_state) : live_state :=
  let cs := set_pages_to_visit rest (live_crawl st) in
  if decide (current_url ∈ visited_urls cs) then
    {| live_crawl := cs; content_log := content_log st; raised := None |}
  else
    let k := length (fetch_log cs) in
    let cs := log_fetch current_url cs in
    match fetcher k current_url with
    | Some page_content =>
        if Py.truthy page_content then
          match parser page_content with
          | Some sp =>
              {| live_crawl :=
                   process_page (λ _, sp) it current_url page_content cs;
                 content_log := content_log st ++ [page_content];
                 raised := None |}
          | None =>
              {| live_crawl := cs; content_log := content_log st;
                 raised := Some current_url |}
          end
        else
          {| live_crawl := cs; content_log := content_log st; raised := None |}
    | None =>
        {| live_crawl := cs; content_log := content_log st; raised := None |}
    end.

(** One turn of the loop; nothing happens once the stack is empty or an
    exception has ended the run. *)
Definition live_turn (st : live_state) : live_state :=
  match raised st with
  | Some _ => st
  | None =>
      match pages_to_visit (live_crawl st) with
      | [] => st
      | current_url :: rest => live_body current_url rest st
      end
  end.

(** The state after [n] turns. *)
Fixpoint live_run (n : nat) (st : live_state) : live_state :=
  match n with
  | 0 => st
  | S n' => live_run n' (live_turn st)
  end.

(** The document of a response text. *)
Definition soup_of (page_content : string) : soup :=
  default (Soup [] [] EmptyString) (parser page_content).

(** Every entry of [extract_log] comes from a call that returned the
    text logged for it, and the aggregates are made of the logged
    texts, one contribution each. *)
Definition live_aggregated (st : live_state) : Prop :=
  Forall2
    (λ url page_content,
       ∃ k, fetch_log (live_crawl st) !! k = Some url
            ∧ fetcher k url = Some page_content
            ∧ attempt_ok k url = true)
    (extract_log (live_crawl st)) (content_log st)
  ∧ all_text (live_crawl st) = (λ c, get_text (soup_of c)) <$> content_log st
  ∧ all_image_urls (live_crawl st)
    = ⋃ ((λ c, extract_image_urls (soup_of c)) <$> content_log st)
  ∧ all_phone_numbers (live_crawl st)
    = ⋃ (extract_phone_numbers <$> content_log st)
  ∧ all_zip_codes (live_crawl st)
    = ⋃ (extract_zip_codes <$> content_log st).

Record live_inv (st : live_state) : Prop := LiveInv {
  live_visited :
    visited_urls (live_crawl st) = list_to_set (extract_log (live_crawl st));
  live_NoDup : NoDup (extract_log (live_crawl st));
  live_agg : live_aggregated st
}.

End live.

Section live_properties.

Variable fetcher : nat → string → option string.
Variable parser : string → option soup.
Variable it : iteration.

Local Abbreviation turn := (live_turn fetcher parser it).
Local Abbreviation run_turns := (live_run fetcher parser it).
Local Abbreviation ok := (attempt_ok fetcher parser).

(** The outcomes of one turn. *)
Lemma live_turn_cases (st : live_state) :
  ((raised st ≠ None ∨ pages_to_visit (live_crawl st) = []) ∧ turn st = st)
  ∨ ∃ u rest,
      raised st = None ∧ pages_to_visit (live_crawl st) = u :: rest
      ∧ ((u ∈ visited_urls (live_crawl st)
          ∧ turn st
            = {| live_crawl := set_pages_to_visit rest (live_crawl st);
                 content_log := content_log st; raised := None |})
         ∨ ((u ∉ visited_urls (live_crawl st))
            ∧ ok (length (fetch_log (live_crawl st))) u = false
            ∧ ∃ r,
                turn st
                = {| live_crawl :=
                       log_fetch u (set_pages_to_visit rest (live_crawl st));
                     content_log := content_log st; raised := r |})
         ∨ ((u ∉ visited_urls (live_crawl st))
            ∧ ∃ c sp,
                fetcher (length (fetch_log (live_crawl st))) u = Some c
                ∧ Py.truthy c = true ∧ parser c = Some sp
                ∧ turn st
                  = {| live_crawl :=
                         process_page (λ _, sp) it u c
                           (log_fetch u
                              (set_pages_to_visit rest (live_crawl st)));
                       content_log := content_log st ++ [c];
                       raised := None |})).
Proof.
  unfold live_turn.
  destruct (raised st) as [v|] eqn:Er; [left; split; [by left|done]|].
  destruct (pages_to_visit (live_crawl st)) as [|u rest] eqn:Ep;
    [left; split; [by right|done]|].
  right. exists u, rest. split_and!; [done..|].
  unfold live_body, attempt_ok. simpl.
  destruct (decide (u ∈ visited_urls (live_crawl st))) as [Hv|Hv]; [by left|].
  right.
  destruct (fetcher (length (fetch_log (live_crawl st))) u) as [c|] eqn:Ef;
    [|left; eauto].
  destruct (Py.truthy c) eqn:Ec; [|left; eauto].
  destruct (parser c) as [sp|] eqn:Es.
  - right. split; [done|]. by exists c, sp.
  - left. split_and!; [done|done|eauto].
Qed.

Lemma live_source_mono (log : list string) (u : string)
    (urls contents : list string) :
  Forall2
    (λ url page_content,
       ∃ k, log !! k = Some url ∧ fetcher k url = Some page_content
            ∧ ok k url = true) urls contents →
  Forall2
    (λ url page_content,
       ∃ k, (log ++ [u]) !! k = Some url ∧ fetcher k url = Some page_content
            ∧ ok k url = true) urls contents.
Proof.
  intros H. eapply Forall2_impl; [exact H|].
  intros url c (k & Hk & ?). exists k. split; [|done].
  by apply lookup_app_l_Some.
Qed.

Lemma live_inv_initial (seed : string) :
  live_inv fetcher parser (live_initial seed).
Proof.
  split; simpl; [done|constructor|].
  unfold live_aggregated. simpl. split_and!; [constructor|done..].
Qed.

Lemma live_inv_turn (st : live_state) :
  live_inv fetcher parser st → live_inv fetcher parser (turn st).
Proof.
  intros Hinv.
  destruct (live_turn_cases st)
    as [[_ ->]|(u & rest & Er & Ep
                & [[Hv ->]|[(Hv & Hfail & r & ->)
                           |(Hv & c & sp & Hf & Hc & Hs & ->)]])];
    [done| | |]; destruct Hinv as [Hvis Hnd (Hsrc & Ht & Hi & Hp & Hz)].
  - split; [done..|]. by split_and!.
  - split; [done..|]. split_and!; [|done..]. simpl.
    by apply live_source_mono.
  - assert (Hsoup : soup_of parser c = sp).
    { unfold soup_of. by rewrite Hs. }
    split; simpl.
    + by rewrite list_to_set_snoc_L, Hvis.
    + apply NoDup_app. split_and!; [done| |apply NoDup_singleton].
      intros x Hx ->%list_elem_of_singleton. apply Hv. rewrite Hvis.
      by apply elem_of_list_to_set.
    + unfold live_aggregated. simpl. split_and!.
      * apply Forall2_app; [by apply live_source_mono|].
        constructor; [|constructor].
        exists (length (fetch_log (live_crawl st))).
        split_and!; [by apply list_lookup_middle|done|].
        unfold attempt_ok. by rewrite Hf, Hc, Hs.
      * rewrite fmap_app, Ht. cbn [fmap list_fmap]. by rewrite Hsoup.
      * rewrite fmap_app, union_list_app_L, Hi. simpl.
        by rewrite (right_id_L ∅ (∪)), Hsoup.
      * rewrite fmap_app, union_list_app_L, Hp. simpl.
        by rewrite (right_id_L ∅ (∪)).
      * rewrite fmap_app, union_list_app_L, Hz. simpl.
        by rewrite (right_id_L ∅ (∪)).
Qed.

Lemma live_inv_run (n : nat) (st : live_state) :
  live_inv fetcher parser st → live_inv fetcher parser (run_turns n st).
Proof.
  revert st. induction n as [|n IH]; intros st Hinv; [done|].
  simpl. by apply IH, live_inv_turn.
Qed.

(** Once the run has been ended by an exception, or the stack is empty,
    further turns change nothing. *)
Lemma live_run_ended (n : nat) (st : live_state) :
  raised st ≠ None ∨ pages_to_visit (live_crawl st) = [] →
  run_turns n st = st.
Proof.
  intros Hend. induction n as [|n IH]; [done|]. simpl.
  assert (turn st = st) as ->; [|done].
  unfold live_turn. destruct Hend as [Hr|Hp].
  - by destruct (raised st).
  - destruct (raised st); [done|]. by rewrite Hp.
Qed.

Lemma live_run_add (n m : nat) (st : live_state) :
  run_turns (n + m) st = run_turns m (run_turns n st).
Proof. revert st. induction n as [|n IH]; intros st; [done|]. apply IH. Qed.

(** A URL in the visited set was extracted after a call for it that
    succeeded. *)
Lemma live_visited_attempt (st : live_state) (u : string) :
  live_inv fetcher parser st →
  u ∈ visited_urls (live_crawl st) →
  ∃ k, fetch_log (live_crawl st) !! k = Some u ∧ ok k u = true.
Proof.
  intros [Hvis _ (Hsrc & _)] Hu.
  rewrite Hvis in Hu. apply elem_of_list_to_set in Hu.
  apply list_elem_of_lookup in Hu as [i Hi].
  destruct (Forall2_lookup_l _ _ _ _ _ Hsrc Hi) as (c & _ & k & Hk & _ & Hok).
  eauto.
Qed.

End live_properties.

(** The loop of the earlier sections is this one for a fetcher that
    answers from a fixed site and a parser that never fails. *)
Lemma live_run_fixed_site (site : gmap string string)
    (html_parser : string → soup) (it : iteration) (fuel : nat) :
  ∀ (st : live_state) (r : crawl_state),
    raised st = None →
    scrape_loop site html_parser it fuel (live_crawl st) = Some r →
    live_crawl
      (live_run (λ _ url, site !! url) (λ c, Some (html_parser c)) it fuel st)
    = r.
Proof.
  induction fuel as [|fuel IH]; intros st r Hr Hloop.
  - simpl in *. destruct (pages_to_visit (live_crawl st)); [|done].
    by injection Hloop as <-.
  - cbn [scrape_loop] in Hloop.
    destruct (pages_to_visit (live_crawl st)) as [|u rest] eqn:Ep.
    + injection Hloop as <-. rewrite live_run_ended; [done|by right].
    + cbn [live_run]. unfold live_turn. rewrite Hr, Ep.
      assert (Hbody :
        raised (live_body (λ _ url, site !! url) (λ c, Some (html_parser c))
                  it u rest st) = None
        ∧ live_crawl (live_body (λ _ url, site !! url)
                        (λ c, Some (html_parser c)) it u rest st)
          = loop_body site html_parser it u rest (live_crawl st)).
      { unfold live_body, loop_body, fetch_page. simpl.
        destruct (decide (u ∈ visited_urls (live_crawl st))); [done|].
        destruct (site !! u) as [c|]; [|done].
        destruct (Py.truthy c); done. }
      destruct Hbody as [Hr' Hc']. apply IH; [done|]. by rewrite Hc'.
Qed.

(** The URL [url_gone] answers only at the fourth request of the run;
    the two pages of [site_dead_link] answer always. *)
Definition late_fetcher (k : nat) (url : string) : option string :=
  if decide (url = url_gone) then
    if k =? 3 then Some "Call (555) 123-4567" else None
  else site_dead_link !! url.

Definition parser_always (page_content : string) : option soup :=
  Some (parser_dead_link page_content).



